(** * Diffusion on MNIST: schedule, forward corruption, reverse step, SSIM

    A shallow embedding of [diffusion_mnist_denoising.py] in exact real
    arithmetic.  A torch tensor is a shape together with its row-major
    contents; torch's elementwise operators follow the broadcasting rule;
    random draws come from an explicit random source that is threaded
    through the calls; a Python exception is the [Raise] case of [result].
    Rounding is not modelled: every float is the real number it stands for. *)

From Stdlib Require Import Reals Lra Lia List ZArith Bool PeanoNat.
Import ListNotations.

Set Implicit Arguments.

(** ** Exceptions and the result type *)

Inductive exn : Type :=
| RuntimeError_index      (* gather: index out of bounds *)
| RuntimeError_shape      (* operands that do not broadcast, bad reshape, bad conv2d sizes *)
| RuntimeError_steps      (* linspace: number of steps must be non-negative *)
| RuntimeError_placement  (* operands of different dtype or on different devices *)
| ValueError_unpack.      (* unpacking a shape of the wrong rank *)

Inductive result (A : Type) : Type :=
| Ok (a : A)
| Raise (e : exn).

Arguments Ok {A} a.
Arguments Raise {A} e.

Definition rbind {A B} (r : result A) (k : A -> result B) : result B :=
  match r with
  | Ok a => k a
  | Raise e => Raise e
  end.

Declare Scope result_scope.
Delimit Scope result_scope with result.
Notation "x <- r ;; k" := (rbind r (fun x => k))
  (at level 61, r at next level, right associativity) : result_scope.

(** ** Lists as arrays *)

Definition tabulate {A : Type} (n : nat) (f : nat -> A) : list A := map f (seq 0 n).

Definition Rsum (l : list R) : R := fold_right Rplus 0%R l.

(** ** Tensors *)

Module Tensor.

Open Scope nat_scope.

(** Contents in row-major order, as torch stores a contiguous tensor. *)
Record tensor : Type := mk { shape : list nat; data : list R }.

Definition numel (sh : list nat) : nat := fold_right Nat.mul 1 sh.

Definition wf (t : tensor) : Prop := length (data t) = numel (shape t).

(** Multi-index of a flat position, and back. *)
Fixpoint unravel (sh : list nat) (i : nat) : list nat :=
  match sh with
  | [] => []
  | _ :: rest => (i / numel rest) :: unravel rest (i mod numel rest)
  end.

Fixpoint ravel (sh idx : list nat) : nat :=
  match sh, idx with
  | _ :: rest, k :: ks => k * numel rest + ravel rest ks
  | _, _ => 0
  end.

(** The index an operand of shape [sh] is read at when the result is read
    at [idx]: a dimension of size 1 is read at 0. *)
Fixpoint bidx (sh idx : list nat) : list nat :=
  match sh, idx with
  | d :: rest, k :: ks => (if d =? 1 then 0 else k) :: bidx rest ks
  | _, _ => []
  end.

(** Shapes are aligned on the right: the shorter one gets leading 1s. *)
Definition pad_left (r : nat) (sh : list nat) : list nat :=
  repeat 1 (r - length sh) ++ sh.

Fixpoint bdims (s1 s2 : list nat) : option (list nat) :=
  match s1, s2 with
  | [], [] => Some []
  | a :: s1', b :: s2' =>
      match bdims s1' s2' with
      | None => None
      | Some s =>
          if a =? b then Some (a :: s)
          else if a =? 1 then Some (b :: s)
          else if b =? 1 then Some (a :: s)
          else None
      end
  | _, _ => None
  end.

Definition get (sh : list nat) (d : list R) (idx : list nat) : R :=
  nth (ravel sh (bidx sh idx)) d 0%R.

(** [a op b] for torch's broadcasting binary operators. *)
Definition bop (f : R -> R -> R) (a b : tensor) : result tensor :=
  let r := Nat.max (length (shape a)) (length (shape b)) in
  let sa := pad_left r (shape a) in
  let sb := pad_left r (shape b) in
  match bdims sa sb with
  | None => Raise RuntimeError_shape
  | Some sh =>
      Ok (mk sh (tabulate (numel sh)
                   (fun i => let idx := unravel sh i in
                             f (get sa (data a) idx) (get sb (data b) idx))))
  end.

(** An operator between a tensor and a Python number, and unary methods. *)
Definition tmap (f : R -> R) (a : tensor) : tensor :=
  mk (shape a) (map f (data a)).

Definition zeros_like (a : tensor) : tensor :=
  mk (shape a) (repeat 0%R (numel (shape a))).

(** [reshape] and [view] on a contiguous tensor: same contents, new shape. *)
Definition reshape (a : tensor) (sh : list nat) : result tensor :=
  if numel sh =? length (data a) then Ok (mk sh (data a))
  else Raise RuntimeError_shape.

(** [a.expand(sh)] for a target of the same rank: a dimension of size 1
    is repeated, any other must agree. *)
Fixpoint expandable (s t : list nat) : bool :=
  match s, t with
  | [], [] => true
  | a :: s', b :: t' => ((a =? b) || (a =? 1)) && expandable s' t'
  | _, _ => false
  end.

Definition expand (a : tensor) (sh : list nat) : result tensor :=
  if expandable (shape a) sh
  then Ok (mk sh (tabulate (numel sh)
                    (fun i => get (shape a) (data a) (unravel sh i))))
  else Raise RuntimeError_shape.

(** [a.gather(-1, t)] for a one-dimensional [a] and a one-dimensional
    index tensor [t] of Python integers. *)
Fixpoint gather_list (a : list R) (t : list Z) : result (list R) :=
  match t with
  | [] => Ok []
  | k :: t' =>
      if ((0 <=? k)%Z && (k <? Z.of_nat (length a))%Z)%bool
      then match gather_list a t' with
           | Ok l => Ok (nth (Z.to_nat k) a 0%R :: l)
           | Raise e => Raise e
           end
      else Raise RuntimeError_index
  end.

Definition gather (a : list R) (t : list Z) : result tensor :=
  match gather_list a t with
  | Ok l => Ok (mk [length t] l)
  | Raise e => Raise e
  end.

(** The indices [gather] accepts. *)
Definition in_range (a : list R) (k : Z) : Prop :=
  (0 <= k < Z.of_nat (length a))%Z.

(** [torch.clamp(v, lo, hi)]. *)
Definition clamp (lo hi : R) (v : R) : R := Rmin (Rmax v lo) hi.

End Tensor.

(** ** The random source

    [torch.randn_like] reads and advances torch's global generator.  The
    generator is an explicit state here; what it returns is a parameter of
    the development (its distribution is not modelled), with the one law that
    a draw of [n] numbers has [n] numbers. *)

Class RandomSource : Type := {
  rng : Type;
  randn : rng -> nat -> list R * rng;
  randn_length : forall g n, length (fst (randn g n)) = n
}.

(** Computations that read the generator and may raise. *)
Definition M {RS : RandomSource} (A : Type) : Type := rng -> result (A * rng).

Definition mret {RS : RandomSource} {A} (a : A) : M A := fun g => Ok (a, g).

Definition mbind {RS : RandomSource} {A B} (m : M A) (k : A -> M B) : M B :=
  fun g => match m g with
           | Ok (a, g') => k a g'
           | Raise e => Raise e
           end.

Definition lift {RS : RandomSource} {A} (r : result A) : M A :=
  fun g => match r with
           | Ok a => Ok (a, g)
           | Raise e => Raise e
           end.

Declare Scope m_scope.
Delimit Scope m_scope with M.
Notation "x <- m ;; k" := (mbind m (fun x => k))
  (at level 61, m at next level, right associativity) : m_scope.
Notation "x <~ r ;; k" := (mbind (lift r) (fun x => k))
  (at level 61, r at next level, right associativity) : m_scope.

Definition randn_like {RS : RandomSource} (x : Tensor.tensor) : M Tensor.tensor :=
  fun g => let (l, g') := randn g (Tensor.numel (Tensor.shape x)) in
           Ok (Tensor.mk (Tensor.shape x) l, g').

Definition randn_shape {RS : RandomSource} (sh : list nat) : M Tensor.tensor :=
  fun g => let (l, g') := randn g (Tensor.numel sh) in Ok (Tensor.mk sh l, g').

(** A random source to run examples with: the state is a counter, a draw
    repeats its value and increments it. *)
Definition counter_source : RandomSource :=
  {| rng := nat;
     randn := fun g n => (repeat (INR g) n, S g);
     randn_length := fun g n => repeat_length (INR g) n |}.

(** [torch.randint(low, high, size=(n,))] reads the same generator.  On an
    empty range ([low >= high]) torch raises; that is [None] here. *)
Class IntSource {RS : RandomSource} : Type := {
  randint : rng -> Z -> Z -> nat -> option (list Z * rng);
  randint_range : forall g low high n, (low < high)%Z ->
    exists l g', randint g low high n = Some (l, g')
                 /\ length l = n
                 /\ Forall (fun k => (low <= k < high)%Z) l;
  randint_empty : forall g low high n, (high <= low)%Z ->
    randint g low high n = None
}.

(** Integers for the examples: the counter modulo the width of the range. *)
Definition counter_randint (g : nat) (low high : Z) (n : nat)
  : option (list Z * nat) :=
  if (low <? high)%Z
  then Some (repeat (low + Z.of_nat g mod (high - low))%Z n, S g)
  else None.

Definition counter_ints : @IntSource counter_source.
Proof.
  refine (@Build_IntSource counter_source counter_randint _ _).
  - intros g low high n H. unfold counter_randint.
    destruct (Z.ltb_spec low high) as [_|C]; [|exfalso; apply (Z.lt_irrefl low);
      exact (Z.lt_le_trans _ _ _ H C)].
    eexists. eexists. split; [reflexivity|]. split; [apply repeat_length|].
    apply Forall_forall. intros k Hk. apply repeat_spec in Hk. subst k.
    assert (Hm : (0 <= Z.of_nat g mod (high - low) < high - low)%Z)
      by (apply Z.mod_pos_bound; lia).
    lia.
  - intros g low high n H. unfold counter_randint.
    destruct (Z.ltb_spec low high) as [C|_]; [|reflexivity].
    exfalso. lia.
Defined.

(** ** The diffusion process ([class Diffusion]) *)

Module Diffusion.

Import Tensor.
Open Scope R_scope.

(** [torch.linspace(start, end, steps)]: [steps] evenly spaced points from
    [start] to [end]; a single step is [start]; a negative [steps] raises. *)
Definition linspace (start end_ : R) (steps : Z) : result (list R) :=
  if (steps <? 0)%Z then Raise RuntimeError_steps
  else if (steps =? 1)%Z then Ok [start]
  else Ok (tabulate (Z.to_nat steps)
             (fun i => start + INR i * ((end_ - start) / (IZR steps - 1)))).

(** [torch.cumprod(l, dim=0)], accumulated left to right. *)
Fixpoint cumprod_from (acc : R) (l : list R) : list R :=
  match l with
  | [] => []
  | a :: l' => (acc * a) :: cumprod_from (acc * a) l'
  end.

Definition cumprod (l : list R) : list R := cumprod_from 1 l.

(** The attributes [__init__] sets.  The schedule arrays are one-dimensional
    tensors of length [n_times]; the network is an opaque function of the
    noisy batch and the timestep batch.  [device] is not modelled. *)
Record t : Type := Build {
  n_times : Z;
  img_H : nat;
  img_W : nat;
  img_C : nat;
  model : tensor -> list Z -> tensor;
  sqrt_betas : list R;
  alphas : list R;
  sqrt_alphas : list R;
  sqrt_one_minus_alpha_bars : list R;
  sqrt_alpha_bars : list R
}.

Definition init (model : tensor -> list Z -> tensor)
  (image_resolution : nat * nat * nat) (n_times : Z) (beta_minmax : R * R)
  : result t :=
  let '(H, W, C) := image_resolution in
  let (beta_1, beta_T) := beta_minmax in
  (betas <- linspace beta_1 beta_T n_times ;;
   let alphas := map (fun b => 1 - b) betas in
   let alpha_bars := cumprod alphas in
   Ok (Build n_times H W C model
         (map sqrt betas)
         alphas
         (map sqrt alphas)
         (map (fun ab => sqrt (1 - ab)) alpha_bars)
         (map sqrt alpha_bars)))%result.

(** [extract(a, t, x_shape)]: one coefficient per sample, shaped
    [b, 1, ..., 1] with the rank of [x_shape]. *)
Definition extract (a : list R) (ts : list Z) (x_shape : list nat) : result tensor :=
  let b := length ts in
  (out <- gather a ts ;;
   reshape out (b :: repeat 1%nat (length x_shape - 1)))%result.

Definition scale_to_minus_one_to_one (x : tensor) : tensor :=
  tmap (fun v => v * 2 - 1) x.

Definition reverse_scale_to_zero_to_one (x : tensor) : tensor :=
  tmap (fun v => (v + 1) * 0.5) x.

Section WithRandomSource.
Context {RS : RandomSource}.

(** [make_noisy(x_zeros, t)]; [detach] leaves the value as it is. *)
Definition make_noisy (self : t) (x_zeros : tensor) (ts : list Z)
  : M (tensor * tensor) :=
  (epsilon <- randn_like x_zeros ;;
   sqrt_alpha_bar <~ extract (sqrt_alpha_bars self) ts (shape x_zeros) ;;
   sqrt_one_minus_alpha_bar <~
     extract (sqrt_one_minus_alpha_bars self) ts (shape x_zeros) ;;
   signal <~ bop Rmult x_zeros sqrt_alpha_bar ;;
   noise <~ bop Rmult epsilon sqrt_one_minus_alpha_bar ;;
   noisy_sample <~ bop Rplus signal noise ;;
   mret (noisy_sample, epsilon))%M.

(** [denoise_at_t(x_t, timestep, t)]: [timestep] is the batch of indices,
    [t] the Python integer the noise switch tests. *)
Definition denoise_at_t (self : t) (x_t : tensor) (timestep : list Z) (t : Z)
  : M tensor :=
  match shape x_t with
  | [_; _; _; _] =>
      (z <- (if (1 <? t)%Z then randn_like x_t else mret (zeros_like x_t)) ;;
       let epsilon_pred := model self x_t timestep in
       alpha <~ extract (alphas self) timestep (shape x_t) ;;
       sqrt_alpha <~ extract (sqrt_alphas self) timestep (shape x_t) ;;
       sqrt_one_minus_alpha_bar <~
         extract (sqrt_one_minus_alpha_bars self) timestep (shape x_t) ;;
       sqrt_beta <~ extract (sqrt_betas self) timestep (shape x_t) ;;
       let inv_sqrt_alpha := tmap (fun v => 1 / v) sqrt_alpha in
       let one_minus_alpha := tmap (fun v => 1 - v) alpha in
       ratio <~ bop Rdiv one_minus_alpha sqrt_one_minus_alpha_bar ;;
       scaled_eps <~ bop Rmult ratio epsilon_pred ;;
       diff <~ bop Rminus x_t scaled_eps ;;
       mean <~ bop Rmult inv_sqrt_alpha diff ;;
       injected <~ bop Rmult sqrt_beta z ;;
       x_t_minus_1 <~ bop Rplus mean injected ;;
       mret (tmap (clamp (-1) 1) x_t_minus_1))%M
  | _ => lift (Raise ValueError_unpack)
  end.

(** The loop of [sample]: [t] runs from [k - 1] down to 0. *)
Fixpoint sample_loop (self : t) (N : nat) (k : nat) (x_t : tensor) : M tensor :=
  match k with
  | O => mret x_t
  | S k' =>
      (x' <- denoise_at_t self x_t (repeat (Z.of_nat k') N) (Z.of_nat k') ;;
       sample_loop self N k' x')%M
  end.

Definition sample (self : t) (N : nat) : M tensor :=
  (x_T <- randn_shape [N; img_C self; img_H self; img_W self] ;;
   x_0 <- sample_loop self N (Z.to_nat (n_times self)) x_T ;;
   mret (reverse_scale_to_zero_to_one x_0))%M.

End WithRandomSource.

(** The five arrays have one entry per timestep. *)
Definition schedule_wf (self : t) : Prop :=
  let T := Z.to_nat (n_times self) in
  length (sqrt_betas self) = T
  /\ length (alphas self) = T
  /\ length (sqrt_alphas self) = T
  /\ length (sqrt_one_minus_alpha_bars self) = T
  /\ length (sqrt_alpha_bars self) = T.

(** The constraints the schedule is meant for. *)
Definition valid_hyperparameters (beta_min beta_max : R) (T : Z) : Prop :=
  0 < beta_min /\ beta_min < beta_max /\ beta_max < 1 /\ (1 <= T)%Z.

(** [cosine_schedule(num_timesteps, s)]; [cosine_f] is its inner [f]. *)
Definition cosine_f (num_timesteps : Z) (s : R) (t : R) : R :=
  cos ((t / IZR num_timesteps + s) / (1 + s) * 0.5 * PI) ^ 2.

Definition cosine_schedule (num_timesteps : Z) (s : R) : result (list R) :=
  (x <- linspace 0 (IZR num_timesteps) (num_timesteps + 1) ;;
   let f0 := cosine_f num_timesteps s 0 in
   let alphas_cumprod := map (fun t => cosine_f num_timesteps s t / f0) x in
   let betas :=
     map (fun hl => 1 - fst hl / snd hl)
       (combine (tl alphas_cumprod) (removelast alphas_cumprod)) in
   Ok (map (clamp 0.0001 0.02) betas))%result.

(** What [forward] can raise: the exceptions of the tensor operations and
    the one of [torch.randint] on an empty range. *)
Inductive forward_exn : Type :=
| Tensor_exn (e : exn)
| RuntimeError_random_range.

Section Training.
Context {RS : RandomSource} {IS : IntSource}.

(** [forward(x_zeros)]: the training-time pass. *)
Definition forward (self : t) (x_zeros : tensor)
  : rng -> forward_exn + (tensor * tensor * tensor) * rng :=
  fun g =>
    let x_zeros := scale_to_minus_one_to_one x_zeros in
    match shape x_zeros with
    | [B; _; _; _] =>
        match randint g 0 (n_times self) B with
        | None => inl RuntimeError_random_range
        | Some (ts, g1) =>
            match make_noisy self x_zeros ts g1 with
            | Raise e => inl (Tensor_exn e)
            | Ok ((perturbed_images, epsilon), g2) =>
                let pred_epsilon := model self perturbed_images ts in
                inr ((perturbed_images, epsilon, pred_epsilon), g2)
            end
        end
    | _ => inl (Tensor_exn ValueError_unpack)
    end.

End Training.

End Diffusion.

(** ** The structural-similarity loss ([class SSIMLoss]) *)

Module SSIM.

Import Tensor.
Open Scope R_scope.

(** A tensor with the precision and the device torch records for it.
    Conversions keep the contents (no rounding in exact arithmetic) and
    change the record. *)
Inductive dtype : Type := Float16 | BFloat16 | Float32 | Float64.

Inductive device : Type := CPU | CUDA (index : nat).

Record ptensor : Type := Place {
  payload : tensor;
  dtype_of : dtype;
  device_of : device
}.

Definition dtype_eqb (a b : dtype) : bool :=
  match a, b with
  | Float16, Float16 | BFloat16, BFloat16 | Float32, Float32 | Float64, Float64 => true
  | _, _ => false
  end.

Definition device_eqb (a b : device) : bool :=
  match a, b with
  | CPU, CPU => true
  | CUDA i, CUDA j => Nat.eqb i j
  | _, _ => false
  end.

(** torch's promotion of two floating types. *)
Definition promote (a b : dtype) : dtype :=
  match a, b with
  | Float64, _ | _, Float64 => Float64
  | Float32, _ | _, Float32 => Float32
  | Float16, Float16 => Float16
  | BFloat16, BFloat16 => BFloat16
  | _, _ => Float32
  end.

Definition to_dtype (a : ptensor) (d : dtype) : ptensor :=
  Place (payload a) d (device_of a).

Definition to_device (a : ptensor) (d : device) : ptensor :=
  Place (payload a) (dtype_of a) d.

(** Elementwise operators between two tensors and with a Python number. *)
Definition pbop (f : R -> R -> R) (a b : ptensor) : result ptensor :=
  if device_eqb (device_of a) (device_of b)
  then (c <- bop f (payload a) (payload b) ;;
        Ok (Place c (promote (dtype_of a) (dtype_of b)) (device_of a)))%result
  else Raise RuntimeError_placement.

Definition pmap (f : R -> R) (a : ptensor) : ptensor :=
  Place (tmap f (payload a)) (dtype_of a) (device_of a).

(** [gaussian_window(size, sigma)]: [bell] is [g] before it is normalised. *)
Definition bell (size : nat) (sigma : R) : list R :=
  let coords := tabulate size (fun i => INR i - (INR size - 1) / 2) in
  map (fun c => exp (- (c ^ 2) / (2 * sigma ^ 2))) coords.

Definition gaussian_window (size : nat) (sigma : R) : list R :=
  let g := bell size sigma in
  map (fun v => v / Rsum g) g.

(** [create_window(window_size, sigma, channel)]: a float32 tensor on the
    CPU of shape [channel, 1, window_size, window_size]. *)
Definition create_window (window_size : nat) (sigma : R) (channel : nat)
  : result ptensor :=
  let _1D_window := mk [window_size] (gaussian_window window_size sigma) in
  (col <- reshape _1D_window [window_size; 1%nat] ;;
   row <- reshape _1D_window [1%nat; window_size] ;;
   _2D_window <- bop Rmult col row ;;
   _2D_window <- reshape _2D_window [1%nat; 1%nat; window_size; window_size] ;;
   w <- expand _2D_window [channel; 1%nat; window_size; window_size] ;;
   Ok (Place w Float32 CPU))%result.

(** [F.conv2d(input, weight, padding=p, groups=g)] without bias, with
    stride and dilation 1 and zero padding [p] on each side.  [input] is
    [N, C, H, W], [weight] is [Co, C / g, kh, kw]; output channel [o] reads
    the input channels of its group.  A kernel larger than the padded input,
    or with an empty side, is rejected. *)
Definition padded_at (sh : list nat) (d : list R) (p n c u v : nat) : R :=
  match sh with
  | [_; _; H; W] =>
      if ((p <=? u) && (u <? p + H) && (p <=? v) && (v <? p + W))%nat%bool
      then nth (ravel sh [n; c; (u - p)%nat; (v - p)%nat]) d 0
      else 0
  | _ => 0
  end.

Definition conv_at (xsh : list nat) (x : list R) (wsh : list nat) (w : list R)
  (p groups n o i j : nat) : R :=
  match xsh, wsh with
  | [_; C; _; _], [Co; Ig; kh; kw] =>
      Rsum (map (fun '(ic, (a, b)) =>
                   nth (ravel wsh [o; ic; a; b]) w 0 *
                   padded_at xsh x p n
                     ((o / (Co / groups)) * Ig + ic)%nat (i + a)%nat (j + b)%nat)
              (list_prod (seq 0 Ig) (list_prod (seq 0 kh) (seq 0 kw))))
  | _, _ => 0
  end.

Definition conv2d_nchw (input weight : tensor) (padding groups : nat) : result tensor :=
  match shape input, shape weight with
  | [N; C; H; W], [Co; Ig; kh; kw] =>
      if ((0 <? groups) && (Ig * groups =? C) && (Co mod groups =? 0)
          && (0 <? Co)
          && (kh <=? H + 2 * padding) && (kw <=? W + 2 * padding)
          && (0 <? kh) && (0 <? kw))%nat%bool
      then
        let osh := [N; Co; (H + 2 * padding - kh + 1)%nat;
                    (W + 2 * padding - kw + 1)%nat] in
        Ok (mk osh
              (tabulate (numel osh)
                 (fun k =>
                    match unravel osh k with
                    | [n; o; i; j] =>
                        conv_at (shape input) (data input)
                          (shape weight) (data weight) padding groups n o i j
                    | _ => 0
                    end)))
      else Raise RuntimeError_shape
  | _, _ => Raise RuntimeError_shape
  end.

(** Input and weight must agree in precision and device; an input of rank
    3 is a single unbatched image. *)
Definition conv2d (input weight : ptensor) (padding groups : nat) : result ptensor :=
  if negb (dtype_eqb (dtype_of input) (dtype_of weight)
           && device_eqb (device_of input) (device_of weight))
  then Raise RuntimeError_placement
  else
    match shape (payload input) with
    | [C; H; W] =>
        (r <- conv2d_nchw (mk [1%nat; C; H; W] (data (payload input)))
                (payload weight) padding groups ;;
         Ok (Place (mk (tl (shape r)) (data r)) (dtype_of input) (device_of input)))%result
    | _ =>
        (r <- conv2d_nchw (payload input) (payload weight) padding groups ;;
         Ok (Place r (dtype_of input) (device_of input)))%result
    end.

(** [a.mean()]: a zero-dimensional tensor. *)
Definition mean (a : ptensor) : ptensor :=
  Place (mk [] [Rsum (data (payload a)) / INR (length (data (payload a)))])
    (dtype_of a) (device_of a).

(** The attributes of an [SSIMLoss] object. *)
Record t : Type := Build {
  window_size : nat;
  sigma : R;
  channel : nat;
  window : ptensor
}.

Definition init (window_size : nat) (sigma : R) : result t :=
  let channel := 1%nat in
  (w <- create_window window_size sigma channel ;;
   Ok (Build window_size sigma channel w))%result.

(** [forward(img1, img2)].  The first statement rebinds [self.window], so
    the object after the call is returned next to the score; it is rebound
    also when a later statement raises. *)
Definition forward (self : t) (img1 img2 : ptensor) : t * result ptensor :=
  let win := to_device (to_dtype (window self) (dtype_of img1)) (device_of img1) in
  let self' := Build (window_size self) (sigma self) (channel self) win in
  let pad := (window_size self / 2)%nat in
  let g := channel self in
  (self',
   (mu1 <- conv2d img1 win pad g ;;
    mu2 <- conv2d img2 win pad g ;;
    sq1 <- pbop Rmult img1 img1 ;;
    e11 <- conv2d sq1 win pad g ;;
    sigma1_sq <- pbop Rminus e11 (pmap (fun v => v ^ 2) mu1) ;;
    sq2 <- pbop Rmult img2 img2 ;;
    e22 <- conv2d sq2 win pad g ;;
    sigma2_sq <- pbop Rminus e22 (pmap (fun v => v ^ 2) mu2) ;;
    p12 <- pbop Rmult img1 img2 ;;
    e12 <- conv2d p12 win pad g ;;
    mu12 <- pbop Rmult mu1 mu2 ;;
    sigma12 <- pbop Rminus e12 mu12 ;;
    let C1 := 0.01 ^ 2 in
    let C2 := 0.03 ^ 2 in
    m12 <- pbop Rmult (pmap (fun v => 2 * v) mu1) mu2 ;;
    num <- pbop Rmult (pmap (fun v => v + C1) m12)
                      (pmap (fun v => v + C2) (pmap (fun v => 2 * v) sigma12)) ;;
    musq <- pbop Rplus (pmap (fun v => v ^ 2) mu1) (pmap (fun v => v ^ 2) mu2) ;;
    sigsq <- pbop Rplus sigma1_sq sigma2_sq ;;
    den <- pbop Rmult (pmap (fun v => v + C1) musq) (pmap (fun v => v + C2) sigsq) ;;
    ssim_map <- pbop Rdiv num den ;;
    let ssim_map := pmap (clamp 0 1) ssim_map in
    Ok (mean ssim_map))%result).

Definition ssim_loss (self : t) (img1 img2 : ptensor) : t * result ptensor :=
  let (self', r) := forward self img1 img2 in
  (self', (s <- r ;; Ok (pmap (fun v => 1 - v) s))%result).

End SSIM.

(** * Properties *)

(** ** Arrays *)

Lemma tabulate_length {A} n (f : nat -> A) : length (tabulate n f) = n.
Proof. unfold tabulate. now rewrite length_map, length_seq. Qed.

Lemma nth_tabulate {A} n (f : nat -> A) i d :
  (i < n)%nat -> nth i (tabulate n f) d = f i.
Proof.
  intros Hi. unfold tabulate.
  rewrite (nth_indep _ d (f 0%nat)) by now rewrite length_map, length_seq.
  rewrite (map_nth f (seq 0 n) 0%nat i). now rewrite seq_nth.
Qed.

Lemma tabulate_ext {A} n (f g : nat -> A) :
  (forall i, (i < n)%nat -> f i = g i) -> tabulate n f = tabulate n g.
Proof.
  intros H. unfold tabulate. apply map_ext_in.
  intros i Hi. apply in_seq in Hi. apply H. lia.
Qed.

Lemma tabulate_nth {A} (l : list A) d :
  tabulate (length l) (fun i => nth i l d) = l.
Proof.
  apply (nth_ext _ _ d d).
  - apply tabulate_length.
  - intros i Hi. rewrite tabulate_length in Hi.
    now rewrite nth_tabulate by assumption.
Qed.

Lemma tabulate_repeat {A} n (a : A) : tabulate n (fun _ => a) = repeat a n.
Proof.
  apply (nth_ext _ _ a a).
  - now rewrite tabulate_length, repeat_length.
  - intros i Hi. rewrite tabulate_length in Hi.
    rewrite nth_tabulate by assumption. now rewrite nth_repeat.
Qed.

Lemma nth_repeat_lt {A} (a d : A) n i : (i < n)%nat -> nth i (repeat a n) d = a.
Proof.
  intros Hi. rewrite (nth_indep _ d a) by now rewrite repeat_length.
  apply nth_repeat.
Qed.

Lemma map_tabulate {A B} (h : A -> B) n (f : nat -> A) :
  map h (tabulate n f) = tabulate n (fun i => h (f i)).
Proof. unfold tabulate. now rewrite map_map. Qed.

(** ** Shapes and broadcasting *)

Module TensorFacts.

Import Tensor.
Open Scope nat_scope.

Lemma numel_ones m : numel (repeat 1 m) = 1.
Proof. induction m; simpl; lia. Qed.

Lemma pad_left_full sh : pad_left (Nat.max (length sh) (length sh)) sh = sh.
Proof. unfold pad_left. rewrite Nat.max_id, Nat.sub_diag. reflexivity. Qed.

Lemma bdims_refl sh : bdims sh sh = Some sh.
Proof.
  induction sh as [|a sh IH]; simpl; [reflexivity|].
  now rewrite IH, Nat.eqb_refl.
Qed.

Lemma bdims_ones_r sh : bdims sh (repeat 1 (length sh)) = Some sh.
Proof.
  induction sh as [|a sh IH]; simpl; [reflexivity|].
  rewrite IH. destruct (a =? 1); reflexivity.
Qed.

Lemma bdims_ones_l sh : bdims (repeat 1 (length sh)) sh = Some sh.
Proof.
  induction sh as [|a sh IH]; simpl; [reflexivity|].
  rewrite IH. destruct a as [|[|a]]; reflexivity.
Qed.

Lemma ravel_bidx_unravel sh i :
  i < numel sh -> ravel sh (bidx sh (unravel sh i)) = i.
Proof.
  revert i. induction sh as [|d rest IH]; intros i Hi; simpl in *.
  - lia.
  - assert (HM : numel rest <> 0) by (intros E; rewrite E in Hi; lia).
    rewrite IH by (apply Nat.mod_upper_bound; exact HM).
    assert (Hh : (if d =? 1 then 0 else i / numel rest) = i / numel rest).
    { destruct (Nat.eqb_spec d 1) as [->|]; [|reflexivity].
      symmetry. apply Nat.div_small. lia. }
    rewrite Hh. pose proof (Nat.div_mod_eq i (numel rest)). lia.
Qed.

Lemma ravel_bidx_ones m ks : ravel (repeat 1 m) (bidx (repeat 1 m) ks) = 0.
Proof.
  revert ks. induction m as [|m IH]; intros [|k ks]; simpl; try reflexivity.
  rewrite IH. reflexivity.
Qed.

Lemma get_same sh d i : i < numel sh -> get sh d (unravel sh i) = nth i d 0%R.
Proof. intros Hi. unfold get. now rewrite ravel_bidx_unravel. Qed.

Lemma get_coef N rest d i :
  i < N * numel rest ->
  get (N :: repeat 1 (length rest)) d (unravel (N :: rest) i)
  = nth (i / numel rest) d 0%R.
Proof.
  intros Hi. unfold get. simpl.
  rewrite ravel_bidx_ones, numel_ones.
  destruct (Nat.eqb_spec N 1) as [->|].
  - rewrite Nat.div_small by lia. reflexivity.
  - f_equal. lia.
Qed.

Lemma bop_same f a b :
  shape a = shape b ->
  bop f a b =
  Ok (mk (shape a)
        (tabulate (numel (shape a))
           (fun i => f (nth i (data a) 0%R) (nth i (data b) 0%R)))).
Proof.
  intros E. unfold bop. rewrite <- E, pad_left_full, bdims_refl.
  do 2 f_equal. apply tabulate_ext. intros i Hi. cbv zeta.
  now rewrite !get_same.
Qed.

Lemma bop_coef_r f a b N rest :
  shape a = N :: rest ->
  shape b = N :: repeat 1 (length rest) ->
  bop f a b =
  Ok (mk (N :: rest)
        (tabulate (N * numel rest)
           (fun i => f (nth i (data a) 0%R) (nth (i / numel rest) (data b) 0%R)))).
Proof.
  intros Ea Eb. unfold bop. rewrite Ea, Eb.
  replace (length (N :: repeat 1 (length rest))) with (length (N :: rest))
    by (simpl; now rewrite repeat_length).
  rewrite pad_left_full.
  unfold pad_left.
  replace (Nat.max (length (N :: rest)) (length (N :: rest))
           - length (N :: repeat 1 (length rest))) with 0
    by (simpl; rewrite repeat_length; lia).
  cbn [repeat app bdims]. rewrite bdims_ones_r, Nat.eqb_refl.
  do 2 f_equal. apply tabulate_ext. intros i Hi. cbv zeta.
  rewrite get_coef by exact Hi.
  rewrite get_same by exact Hi. reflexivity.
Qed.

Lemma bop_coef_l f a b N rest :
  shape a = N :: repeat 1 (length rest) ->
  shape b = N :: rest ->
  bop f a b =
  Ok (mk (N :: rest)
        (tabulate (N * numel rest)
           (fun i => f (nth (i / numel rest) (data a) 0%R) (nth i (data b) 0%R)))).
Proof.
  intros Ea Eb. unfold bop. rewrite Ea, Eb.
  replace (length (N :: repeat 1 (length rest))) with (length (N :: rest))
    by (simpl; now rewrite repeat_length).
  rewrite pad_left_full.
  unfold pad_left.
  replace (Nat.max (length (N :: rest)) (length (N :: rest))
           - length (N :: repeat 1 (length rest))) with 0
    by (simpl; rewrite repeat_length; lia).
  cbn [repeat app bdims]. rewrite bdims_ones_l, Nat.eqb_refl.
  do 2 f_equal. apply tabulate_ext. intros i Hi. cbv zeta.
  rewrite get_coef by exact Hi.
  rewrite get_same by exact Hi. reflexivity.
Qed.

End TensorFacts.

(** ** The coefficient extractor and the boundary rescaling *)

Module ExtractFacts.

Import Tensor Diffusion.

Lemma gather_list_in_range a ts :
  Forall (in_range a) ts ->
  gather_list a ts = Ok (map (fun k => nth (Z.to_nat k) a 0%R) ts).
Proof.
  induction 1 as [|k ts Hk _ IH]; simpl; [reflexivity|].
  destruct Hk as [H0 H1].
  apply Z.leb_le in H0. apply Z.ltb_lt in H1.
  now rewrite H0, H1, IH.
Qed.

Lemma extract_in_range a ts x_shape :
  Forall (in_range a) ts ->
  extract a ts x_shape =
  Ok (mk (length ts :: repeat 1%nat (length x_shape - 1))
        (map (fun k => nth (Z.to_nat k) a 0%R) ts)).
Proof.
  intros H. unfold extract, gather. rewrite (gather_list_in_range H).
  unfold rbind, reshape. cbn [data numel fold_right].
  fold (numel (repeat 1%nat (length x_shape - 1))).
  rewrite TensorFacts.numel_ones, Nat.mul_1_r, length_map, Nat.eqb_refl.
  reflexivity.
Qed.

Lemma extract_constant a k N x_shape :
  in_range a k ->
  extract a (repeat k N) x_shape =
  Ok (mk (N :: repeat 1%nat (length x_shape - 1))
        (repeat (nth (Z.to_nat k) a 0%R) N)).
Proof.
  intros Hk. rewrite extract_in_range.
  - rewrite repeat_length, map_repeat. reflexivity.
  - apply Forall_forall. intros k' Hin. apply repeat_spec in Hin. now subst.
Qed.

Lemma extract_out_of_range a k ts x_shape :
  ~ in_range a k ->
  extract a (k :: ts) x_shape = Raise RuntimeError_index.
Proof.
  intros Hk. unfold extract, gather. simpl.
  destruct (0 <=? k)%Z eqn:H0; destruct (k <? Z.of_nat (length a))%Z eqn:H1;
    simpl; try reflexivity.
  exfalso. apply Hk. apply Z.leb_le in H0. apply Z.ltb_lt in H1. now split.
Qed.

(** C5: on the constant timestep batch [[k] * N], with [k] an index of
    [coeffs] and a target shape of rank [r >= 1], [extract] returns a tensor
    of shape [N, 1, ..., 1] of rank [r] whose [N] entries all equal
    [coeffs[k]]. *)
Theorem extract_constant_batch (coeffs : list R) (N : nat) (k : Z)
  (x_shape : list nat) (r : nat) :
  length x_shape = r -> (1 <= r)%nat ->
  (0 <= k < Z.of_nat (length coeffs))%Z ->
  exists out,
    extract coeffs (repeat k N) x_shape = Ok out
    /\ shape out = N :: repeat 1%nat (r - 1)
    /\ length (shape out) = r
    /\ data out = repeat (nth (Z.to_nat k) coeffs 0%R) N
    /\ forall i, (i < N)%nat -> nth i (data out) 0%R = nth (Z.to_nat k) coeffs 0%R.
Proof.
  intros Hr Hr1 Hk. eexists. split; [apply extract_constant; exact Hk|].
  cbn [shape data]. rewrite Hr.
  split; [reflexivity|]. split; [|split; [reflexivity|]].
  - simpl. rewrite repeat_length. lia.
  - intros i Hi. now apply nth_repeat_lt.
Qed.

Lemma extract_constant_batch_witness :
  exists out,
    extract [0.5; 0.25; 0.125]%R (repeat 1%Z 2) [2; 1; 3; 3]%nat = Ok out
    /\ shape out = [2; 1; 1; 1]%nat
    /\ length (shape out) = 4%nat
    /\ data out = [0.25; 0.25]%R
    /\ forall i, (i < 2)%nat -> nth i (data out) 0%R = 0.25%R.
Proof.
  apply (@extract_constant_batch [0.5; 0.25; 0.125]%R 2 1%Z [2; 1; 3; 3]%nat 4).
  - reflexivity.
  - lia.
  - simpl. lia.
Defined.

(** C10: the two rescalings are inverse to each other, on every tensor. *)
Theorem rescalings_inverse (x : tensor) :
  reverse_scale_to_zero_to_one (scale_to_minus_one_to_one x) = x
  /\ scale_to_minus_one_to_one (reverse_scale_to_zero_to_one x) = x.
Proof.
  destruct x as [sh d].
  unfold reverse_scale_to_zero_to_one, scale_to_minus_one_to_one, tmap.
  cbn [shape data]. rewrite !map_map. split; f_equal.
  - rewrite <- (map_id d) at 2. apply map_ext. intros v. lra.
  - rewrite <- (map_id d) at 2. apply map_ext. intros v. lra.
Qed.

End ExtractFacts.

(** ** The noise schedule *)

Module ScheduleFacts.

Import Tensor Diffusion.
Open Scope R_scope.

Lemma linspace_negative s e T : (T < 0)%Z -> linspace s e T = Raise RuntimeError_steps.
Proof. intros H. unfold linspace. apply Z.ltb_lt in H. now rewrite H. Qed.

Lemma linspace_length s e T betas :
  linspace s e T = Ok betas -> length betas = Z.to_nat T.
Proof.
  unfold linspace. destruct (T <? 0)%Z; [discriminate|].
  destruct (Z.eqb_spec T 1) as [->|_]; intros [= <-].
  - reflexivity.
  - apply tabulate_length.
Qed.

Lemma linspace_total s e T :
  (0 <= T)%Z -> exists betas, linspace s e T = Ok betas.
Proof.
  intros H. unfold linspace.
  destruct (Z.ltb_spec T 0); [lia|].
  destruct (T =? 1)%Z; eexists; reflexivity.
Qed.

Lemma linspace_head s e T betas :
  (1 <= T)%Z -> linspace s e T = Ok betas -> nth 0 betas 0 = s.
Proof.
  intros HT. unfold linspace.
  destruct (Z.ltb_spec T 0); [lia|].
  destruct (Z.eqb_spec T 1) as [->|_]; intros [= <-]; [reflexivity|].
  rewrite nth_tabulate by lia. simpl. lra.
Qed.

Lemma linspace_bounds s e T betas :
  s <= e -> linspace s e T = Ok betas ->
  Forall (fun b => s <= b <= e) betas.
Proof.
  intros Hse. unfold linspace.
  destruct (Z.ltb_spec T 0); [discriminate|].
  destruct (Z.eqb_spec T 1) as [->|Hne]; intros [= <-].
  - constructor; [lra|constructor].
  - unfold tabulate. apply Forall_forall. intros b Hin.
    apply in_map_iff in Hin. destruct Hin as (i & <- & Hi).
    apply in_seq in Hi.
    assert (Hi' : (Z.of_nat i <= T - 1)%Z) by lia.
    assert (HT : (2 <= T)%Z) by lia.
    assert (Hd : 0 < IZR T - 1) by (apply IZR_le in HT; lra).
    assert (Hi0 : 0 <= INR i) by apply pos_INR.
    assert (Hi1 : INR i <= IZR T - 1).
    { rewrite INR_IZR_INZ. apply IZR_le in Hi'. rewrite minus_IZR in Hi'. exact Hi'. }
    set (q := INR i / (IZR T - 1)).
    assert (Hq : 0 <= q <= 1).
    { unfold q. split.
      - apply Rmult_le_pos; [exact Hi0|]. left. now apply Rinv_0_lt_compat.
      - apply (Rmult_le_reg_r (IZR T - 1)); [exact Hd|].
        unfold Rdiv. rewrite Rmult_assoc, Rinv_l by lra. lra. }
    replace (s + INR i * ((e - s) / (IZR T - 1))) with (s + q * (e - s))
      by (unfold q; field; lra).
    nra.
Qed.

Lemma cumprod_from_length acc l : length (cumprod_from acc l) = length l.
Proof. revert acc. induction l; intros; simpl; [reflexivity|now rewrite IHl]. Qed.

Lemma cumprod_from_bounds acc l :
  0 < acc <= 1 ->
  Forall (fun a => 0 < a < 1) l ->
  Forall (fun p => 0 < p < 1) (cumprod_from acc l).
Proof.
  intros Hacc H. revert acc Hacc.
  induction H as [|a l Ha _ IH]; intros acc Hacc; simpl; constructor.
  - nra.
  - apply IH. nra.
Qed.

Lemma init_unfold model H W C T b1 bT betas :
  linspace b1 bT T = Ok betas ->
  init model (H, W, C) T (b1, bT) =
  Ok (Build T H W C model
        (map sqrt betas)
        (map (fun b => 1 - b) betas)
        (map sqrt (map (fun b => 1 - b) betas))
        (map (fun ab => sqrt (1 - ab)) (cumprod (map (fun b => 1 - b) betas)))
        (map sqrt (cumprod (map (fun b => 1 - b) betas)))).
Proof. intros E. unfold init. rewrite E. reflexivity. Qed.

Lemma init_negative model res T bb :
  (T < 0)%Z -> init model res T bb = Raise RuntimeError_steps.
Proof.
  intros HT. destruct res as [[H W] C], bb as [b1 bT].
  unfold init. now rewrite linspace_negative.
Qed.

Lemma init_schedule_wf model res T bb self :
  init model res T bb = Ok self -> schedule_wf self.
Proof.
  destruct res as [[H W] C], bb as [b1 bT].
  destruct (linspace b1 bT T) as [betas|e] eqn:E.
  - rewrite (@init_unfold model H W C _ _ _ _ E). intros [= <-].
    apply linspace_length in E.
    unfold schedule_wf, cumprod. cbn [n_times sqrt_betas alphas sqrt_alphas
      sqrt_one_minus_alpha_bars sqrt_alpha_bars].
    now rewrite ?length_map, ?cumprod_from_length, ?length_map.
  - unfold init. rewrite E. discriminate.
Qed.

Lemma nth_map_in {A B} (f : A -> B) l i dA dB :
  (i < length l)%nat -> nth i (map f l) dB = f (nth i l dA).
Proof.
  intros Hi. rewrite (nth_indep _ dB (f dA)) by now rewrite length_map.
  apply map_nth.
Qed.

Lemma linspace_cons s e T betas :
  (1 <= T)%Z -> linspace s e T = Ok betas -> exists rest, betas = s :: rest.
Proof.
  intros HT. unfold linspace.
  destruct (Z.ltb_spec T 0); [lia|].
  destruct (Z.eqb_spec T 1) as [->|_]; intros [= <-]; [now exists []|].
  destruct (Z.to_nat T) as [|n] eqn:En; [lia|].
  unfold tabulate. cbn [seq map]. eexists. f_equal. simpl. lra.
Qed.

Lemma alpha_bars_bounds beta_min beta_max T betas :
  valid_hyperparameters beta_min beta_max T ->
  linspace beta_min beta_max T = Ok betas ->
  Forall (fun p => 0 < p < 1) (cumprod (map (fun b => 1 - b) betas)).
Proof.
  intros (H0 & H1 & H2 & HT) E.
  apply cumprod_from_bounds; [lra|].
  apply Forall_map.
  eapply Forall_impl; [|apply (linspace_bounds (s := beta_min) (e := beta_max) T)].
  - cbv beta. intros b Hb. lra.
  - lra.
  - exact E.
Qed.

(** C6: for valid hyperparameters the constructor returns a schedule in
    which, at every timestep, the squares of [sqrt_alpha_bars] and of
    [sqrt_one_minus_alpha_bars] add up to 1 (in exact arithmetic). *)
Theorem schedule_squares_sum_to_one model res (T : Z) (beta_min beta_max : R) :
  0 < beta_min -> beta_min < beta_max -> beta_max < 1 -> (1 <= T)%Z ->
  exists self,
    init model res T (beta_min, beta_max) = Ok self
    /\ forall t : Z, (0 <= t < T)%Z ->
         nth (Z.to_nat t) (sqrt_alpha_bars self) 0 ^ 2
         + nth (Z.to_nat t) (sqrt_one_minus_alpha_bars self) 0 ^ 2 = 1.
Proof.
  intros H0 H1 H2 HT. destruct res as [[H W] C].
  destruct (@linspace_total beta_min beta_max T) as [betas E]; [lia|].
  eexists. split; [apply (@init_unfold model H W C _ _ _ _ E)|].
  intros t Ht. cbn [sqrt_alpha_bars sqrt_one_minus_alpha_bars].
  pose proof (@alpha_bars_bounds beta_min beta_max T betas
                (conj H0 (conj H1 (conj H2 HT))) E) as Hb.
  set (abs := cumprod (map (fun b => 1 - b) betas)) in *.
  assert (Hlen : length abs = Z.to_nat T).
  { unfold abs, cumprod. rewrite cumprod_from_length, length_map.
    now apply linspace_length in E. }
  assert (Hi : (Z.to_nat t < length abs)%nat) by lia.
  rewrite (nth_map_in sqrt abs 0 0 Hi).
  rewrite (nth_map_in (fun ab => sqrt (1 - ab)) abs 0 0 Hi).
  pose proof (proj1 (Forall_forall _ _) Hb _ (nth_In abs 0 Hi)) as Hp.
  cbv beta in Hp.
  rewrite !pow2_sqrt by lra. lra.
Qed.

Lemma schedule_squares_sum_to_one_witness :
  exists self,
    init (fun x _ => x) (28, 28, 1)%nat 1000 (1/10000, 2/100) = Ok self
    /\ forall t : Z, (0 <= t < 1000)%Z ->
         nth (Z.to_nat t) (sqrt_alpha_bars self) 0 ^ 2
         + nth (Z.to_nat t) (sqrt_one_minus_alpha_bars self) 0 ^ 2 = 1.
Proof.
  apply (@schedule_squares_sum_to_one (fun x _ => x) (28, 28, 1)%nat 1000
           (1/10000) (2/100)); [lra | lra | lra | lia].
Defined.

(** The entries at timestep 0 of a schedule built with at least one step. *)
Lemma init_head model res T beta_min beta_max self :
  (1 <= T)%Z ->
  init model res T (beta_min, beta_max) = Ok self ->
  nth 0 (sqrt_betas self) 0 = sqrt beta_min
  /\ nth 0 (alphas self) 0 = 1 - beta_min
  /\ nth 0 (sqrt_alphas self) 0 = sqrt (1 - beta_min)
  /\ nth 0 (sqrt_one_minus_alpha_bars self) 0 = sqrt (1 - 1 * (1 - beta_min))
  /\ nth 0 (sqrt_alpha_bars self) 0 = sqrt (1 * (1 - beta_min)).
Proof.
  intros HT. destruct res as [[H W] C].
  destruct (@linspace_total beta_min beta_max T) as [betas E]; [lia|].
  rewrite (@init_unfold model H W C _ _ _ _ E). intros [= <-].
  destruct (@linspace_cons beta_min beta_max T betas HT E) as [rest ->].
  cbn. repeat split; reflexivity.
Qed.

(** Construction on a non-negative number of steps, for the proofs below. *)
Lemma init_total model res (T : Z) (beta_min beta_max : R) :
  (0 <= T)%Z ->
  exists self,
    init model res T (beta_min, beta_max) = Ok self
    /\ n_times self = T
    /\ schedule_wf self.
Proof.
  intros HT. destruct res as [[H W] C].
  destruct (@linspace_total beta_min beta_max T HT) as [betas E].
  pose proof (@init_unfold model H W C _ _ _ _ E) as Hinit.
  eexists. split; [exact Hinit|]. split; [reflexivity|].
  exact (init_schedule_wf _ _ _ _ Hinit).
Qed.

(** C7 as the code has it: the constructor checks nothing.  For every pair
    of bounds and every non-negative number of steps it returns a schedule,
    whose five arrays have one entry per step. *)
Theorem init_succeeds_unchecked model res (T : Z) (beta_min beta_max : R) :
  (0 <= T)%Z ->
  exists self,
    init model res T (beta_min, beta_max) = Ok self
    /\ n_times self = T
    /\ schedule_wf self.
Proof.
  intros HT. destruct res as [[H W] C].
  destruct (linspace_total beta_min beta_max HT) as [betas E].
  eexists. split; [apply (@init_unfold model H W C _ _ _ _ E)|]. split; [reflexivity|].
  apply (@init_schedule_wf model (H, W, C) T (beta_min, beta_max)).
  apply (@init_unfold model H W C _ _ _ _ E).
Qed.

Lemma init_succeeds_unchecked_witness :
  exists self,
    init (fun x _ => x) (28, 28, 1)%nat 0 (2, -1) = Ok self
    /\ n_times self = 0%Z
    /\ schedule_wf self.
Proof.
  apply (@init_succeeds_unchecked (fun x _ => x) (28, 28, 1)%nat 0 2 (-1)). lia.
Defined.

(** C7, refuted as stated: with [beta_min > beta_max] the constraints are
    violated and construction returns a schedule all the same. *)
Lemma init_accepts_invalid_hyperparameters :
  ~ valid_hyperparameters (3/4) (1/2) 2
  /\ exists self, init (fun x _ => x) (28, 28, 1)%nat 2 (3/4, 1/2) = Ok self.
Proof.
  split.
  - unfold valid_hyperparameters. lra.
  - eexists. reflexivity.
Qed.

End ScheduleFacts.

(** ** Forward corruption and the reverse step *)

Module ProcessFacts.

Import Tensor Diffusion TensorFacts ExtractFacts ScheduleFacts.
Open Scope R_scope.

Section WithRandomSource.
Context {RS : RandomSource}.

Lemma lift_ok {A B} (a : A) (k : A -> M B) g :
  mbind (lift (Ok a)) k g = k a g.
Proof. reflexivity. Qed.

Lemma randn_like_run x g :
  randn_like x g =
  Ok (mk (shape x) (fst (randn g (numel (shape x)))),
      snd (randn g (numel (shape x)))).
Proof. unfold randn_like. now destruct (randn g (numel (shape x))). Qed.

(** What [make_noisy] computes, entry by entry of the flat contents. *)
Lemma make_noisy_run self x ts N rest g :
  shape x = N :: rest ->
  length ts = N ->
  Forall (in_range (sqrt_alpha_bars self)) ts ->
  Forall (in_range (sqrt_one_minus_alpha_bars self)) ts ->
  let draw := fst (randn g (numel (shape x))) in
  make_noisy self x ts g =
  Ok ((mk (N :: rest)
         (tabulate (N * numel rest)%nat
            (fun i =>
               nth i (data x) 0
               * nth (Z.to_nat (nth (i / numel rest) ts 0%Z)) (sqrt_alpha_bars self) 0
               + nth i draw 0
                 * nth (Z.to_nat (nth (i / numel rest) ts 0%Z))
                     (sqrt_one_minus_alpha_bars self) 0)),
       mk (shape x) draw),
      snd (randn g (numel (shape x)))).
Proof.
  intros Hx Hts Ha Hb draw. unfold make_noisy.
  unfold mbind at 1. rewrite randn_like_run. fold draw.
  rewrite (extract_in_range _ Ha), lift_ok.
  rewrite (extract_in_range _ Hb), lift_ok.
  assert (Hc : length ts :: repeat 1%nat (length (shape x) - 1)
               = N :: repeat 1%nat (length rest)).
  { rewrite Hx, Hts. cbn [length]. now rewrite Nat.sub_succ, Nat.sub_0_r. }
  rewrite Hc.
  erewrite (@bop_coef_r Rmult x _ N rest); [|exact Hx|reflexivity].
  rewrite lift_ok.
  erewrite (@bop_coef_r Rmult (mk (shape x) draw) _ N rest); [|exact Hx|reflexivity].
  rewrite lift_ok.
  rewrite bop_same by reflexivity. rewrite lift_ok.
  unfold mret. cbn [shape data numel fold_right]. fold (numel rest).
  do 4 f_equal. apply tabulate_ext. intros i Hi.
  rewrite !nth_tabulate by exact Hi.
  assert (Hq : (i / numel rest < length ts)%nat).
  { rewrite Hts. apply Nat.Div0.div_lt_upper_bound. lia. }
  rewrite !(nth_map_in _ ts 0%Z 0 Hq). reflexivity.
Qed.

(** What [denoise_at_t] computes on the constant timestep batch [[t] * B],
    entry by entry; [z] is the draw when [t > 1] and zero otherwise. *)
Lemma denoise_at_t_run self x t g B C H W :
  shape x = [B; C; H; W]%nat ->
  shape (model self x (repeat t B)) = shape x ->
  in_range (alphas self) t ->
  in_range (sqrt_alphas self) t ->
  in_range (sqrt_one_minus_alpha_bars self) t ->
  in_range (sqrt_betas self) t ->
  let n := numel (shape x) in
  let z := if (1 <? t)%Z then fst (randn g n) else repeat 0 n in
  let g' := if (1 <? t)%Z then snd (randn g n) else g in
  let e := data (model self x (repeat t B)) in
  let k := Z.to_nat t in
  denoise_at_t self x (repeat t B) t g =
  Ok (mk (shape x)
        (tabulate n
           (fun i =>
              clamp (-1) 1
                (1 / nth k (sqrt_alphas self) 0
                 * (nth i (data x) 0
                    - (1 - nth k (alphas self) 0)
                      / nth k (sqrt_one_minus_alpha_bars self) 0
                      * nth i e 0)
                 + nth k (sqrt_betas self) 0 * nth i z 0))),
      g').
Proof.
  intros Hx He Ha Hsa Hso Hsb n z g' e k.
  unfold denoise_at_t. rewrite Hx. rewrite <- Hx.
  assert (Hz : (if (1 <? t)%Z then randn_like x else mret (zeros_like x)) g
               = Ok (mk (shape x) z, g')).
  { unfold z, g'. destruct (1 <? t)%Z; [apply randn_like_run|reflexivity]. }
  unfold mbind at 1. rewrite Hz. clear Hz.
  rewrite (extract_constant B (shape x) Ha), lift_ok.
  rewrite (extract_constant B (shape x) Hsa), lift_ok.
  rewrite (extract_constant B (shape x) Hso), lift_ok.
  rewrite (extract_constant B (shape x) Hsb), lift_ok.
  fold k.
  replace (length (shape x) - 1)%nat with 3%nat by (rewrite Hx; reflexivity).
  cbn [repeat].
  set (M := numel [C; H; W]).
  assert (Hn : n = (B * M)%nat) by (unfold n; rewrite Hx; reflexivity).
  assert (HB : numel [B; 1; 1; 1]%nat = B) by (simpl; lia).
  rewrite bop_same by reflexivity. rewrite lift_ok.
  erewrite (@bop_coef_l Rmult _ (model self x (repeat t B)) B [C; H; W]%nat);
    [|reflexivity|now rewrite He].
  rewrite lift_ok.
  erewrite (@bop_same Rminus x); [|now rewrite Hx].
  rewrite lift_ok.
  erewrite (@bop_coef_l Rmult _ _ B [C; H; W]%nat); [|reflexivity|exact Hx].
  rewrite lift_ok.
  erewrite (@bop_coef_l Rmult _ _ B [C; H; W]%nat); [|reflexivity|exact Hx].
  rewrite lift_ok.
  rewrite bop_same by reflexivity. rewrite lift_ok.
  unfold mret, tmap. cbn [shape data]. rewrite map_tabulate.
  fold M. rewrite Hx. fold M. change (numel [B; C; H; W]%nat) with (B * M)%nat.
  rewrite <- Hn.
  do 3 f_equal. apply tabulate_ext. intros i Hi.
  assert (Hq : (i / M < B)%nat) by (apply Nat.Div0.div_lt_upper_bound; lia).
  rewrite !(nth_tabulate _ _ Hi).
  rewrite HB. rewrite (nth_tabulate _ _ Hq).
  rewrite !(nth_repeat_lt _ _ Hq).
  rewrite (nth_map_in _ _ 0 0) by now rewrite repeat_length.
  rewrite (nth_map_in _ _ 0 0) by now rewrite repeat_length.
  rewrite !(nth_repeat_lt _ _ Hq).
  reflexivity.
Qed.

Lemma schedule_in_range self k :
  schedule_wf self -> (0 <= k < n_times self)%Z ->
  in_range (sqrt_betas self) k
  /\ in_range (alphas self) k
  /\ in_range (sqrt_alphas self) k
  /\ in_range (sqrt_one_minus_alpha_bars self) k
  /\ in_range (sqrt_alpha_bars self) k.
Proof.
  intros (H1 & H2 & H3 & H4 & H5) Hk. unfold in_range.
  rewrite H1, H2, H3, H4, H5. repeat split; lia.
Qed.

Lemma schedule_all_in_range self ts :
  schedule_wf self ->
  Forall (fun k => (0 <= k < n_times self)%Z) ts ->
  Forall (in_range (sqrt_one_minus_alpha_bars self)) ts
  /\ Forall (in_range (sqrt_alpha_bars self)) ts.
Proof.
  intros Hwf H. split; eapply Forall_impl; try exact H; cbv beta; intros k Hk;
    now destruct (schedule_in_range Hwf Hk) as (_ & _ & _ & ? & ?).
Qed.

(** C1: on an image batch [x] of shape [N, ...] and a timestep batch [ts]
    of [N] indices into the schedule, [make_noisy] returns the pair
    [(noisy, epsilon)], [epsilon] being the tensor drawn from the random
    source with the shape of [x]; [noisy] has the shape of [x], and at
    every position [j] of every sample [n] it is
    [x * sqrt_alpha_bars[ts[n]] + epsilon * sqrt_one_minus_alpha_bars[ts[n]]]. *)
Theorem make_noisy_closed_form self x ts N rest g :
  schedule_wf self ->
  shape x = N :: rest ->
  length ts = N ->
  Forall (fun k => (0 <= k < n_times self)%Z) ts ->
  exists noisy epsilon g',
    make_noisy self x ts g = Ok ((noisy, epsilon), g')
    /\ (epsilon, g') = (mk (shape x) (fst (randn g (numel (shape x)))),
                        snd (randn g (numel (shape x))))
    /\ shape noisy = shape x
    /\ length (data noisy) = numel (shape x)
    /\ forall n j, (n < N)%nat -> (j < numel rest)%nat ->
         let i := (n * numel rest + j)%nat in
         let tn := Z.to_nat (nth n ts 0%Z) in
         nth i (data noisy) 0
         = nth i (data x) 0 * nth tn (sqrt_alpha_bars self) 0
           + nth i (data epsilon) 0 * nth tn (sqrt_one_minus_alpha_bars self) 0.
Proof.
  intros Hwf Hx Hts Hr.
  destruct (schedule_all_in_range Hwf Hr) as [Hb Ha].
  do 3 eexists. split; [apply (make_noisy_run self x g Hx Hts Ha Hb)|].
  split; [reflexivity|]. cbn [shape data].
  split; [now rewrite Hx|]. split.
  - rewrite tabulate_length, Hx. reflexivity.
  - intros n j Hn Hj. set (i := (n * numel rest + j)%nat).
    assert (Hi : (i < N * numel rest)%nat) by (unfold i; nia).
    rewrite (nth_tabulate _ _ Hi).
    replace (i / numel rest)%nat with n; [reflexivity|].
    unfold i. rewrite Nat.div_add_l by lia. rewrite (Nat.div_small j) by exact Hj. lia.
Qed.

(** C2: on a state [x] of shape [B, C, H, W], the timestep [t] of the
    schedule repeated over the batch, and a network prediction of the shape
    of [x], [denoise_at_t] returns the tensor of the shape of [x] whose
    entries are
    [clamp (1 / sqrt_alphas[t] * (x - (1 - alphas[t]) / sqrt_one_minus_alpha_bars[t] * eps_pred) + sqrt_betas[t] * z, -1, 1)],
    with [z] the injected noise of the step. *)
Theorem denoise_at_t_formula self x t g B C H W :
  schedule_wf self ->
  shape x = [B; C; H; W]%nat ->
  (0 <= t < n_times self)%Z ->
  shape (model self x (repeat t B)) = shape x ->
  let eps_pred := model self x (repeat t B) in
  let n := numel (shape x) in
  let z := if (1 <? t)%Z then fst (randn g n) else repeat 0 n in
  let k := Z.to_nat t in
  exists out g',
    denoise_at_t self x (repeat t B) t g = Ok (out, g')
    /\ shape out = shape x
    /\ length (data out) = n
    /\ forall i, (i < n)%nat ->
         nth i (data out) 0
         = clamp (-1) 1
             (1 / nth k (sqrt_alphas self) 0
              * (nth i (data x) 0
                 - (1 - nth k (alphas self) 0)
                   / nth k (sqrt_one_minus_alpha_bars self) 0
                   * nth i (data eps_pred) 0)
              + nth k (sqrt_betas self) 0 * nth i z 0).
Proof.
  intros Hwf Hx Ht He eps_pred n z k.
  destruct (schedule_in_range Hwf Ht) as (Hsb & Ha & Hsa & Hso & _).
  do 2 eexists. split; [apply (denoise_at_t_run self x g Hx He Ha Hsa Hso Hsb)|].
  cbn [shape data]. split; [reflexivity|]. split; [apply tabulate_length|].
  intros i Hi. rewrite (nth_tabulate _ _ Hi). reflexivity.
Qed.

(** C4: in a reverse step at timestep [t] of the schedule, the injected
    noise is the draw from the random source exactly when [t > 1]: then the
    source advances and the drawn tensor enters the update; for [t <= 1]
    (that is, [t = 1] and [t = 0]) the source is left as it is and the
    update has no noise term, so the step is a function of the state and of
    the network's prediction alone. *)
Theorem denoise_at_t_noise_switch self x t B C H W :
  schedule_wf self ->
  shape x = [B; C; H; W]%nat ->
  (0 <= t < n_times self)%Z ->
  shape (model self x (repeat t B)) = shape x ->
  let eps_pred := model self x (repeat t B) in
  let n := numel (shape x) in
  let k := Z.to_nat t in
  let mean i :=
    1 / nth k (sqrt_alphas self) 0
    * (nth i (data x) 0
       - (1 - nth k (alphas self) 0) / nth k (sqrt_one_minus_alpha_bars self) 0
         * nth i (data eps_pred) 0) in
  ((1 < t)%Z ->
   forall g,
     denoise_at_t self x (repeat t B) t g =
     Ok (mk (shape x)
           (tabulate n (fun i =>
              clamp (-1) 1
                (mean i + nth k (sqrt_betas self) 0 * nth i (fst (randn g n)) 0))),
         snd (randn g n)))
  /\ ((t <= 1)%Z ->
      forall g,
        denoise_at_t self x (repeat t B) t g =
        Ok (mk (shape x) (tabulate n (fun i => clamp (-1) 1 (mean i))), g)).
Proof.
  intros Hwf Hx Ht He eps_pred n k mean.
  destruct (schedule_in_range Hwf Ht) as (Hsb & Ha & Hsa & Hso & _).
  split; intros Hcase g;
    rewrite (denoise_at_t_run self x g Hx He Ha Hsa Hso Hsb); fold n k.
  - apply Z.ltb_lt in Hcase. rewrite Hcase. reflexivity.
  - assert (E : (1 <? t)%Z = false) by (apply Z.ltb_ge; lia).
    rewrite E. do 3 f_equal. apply tabulate_ext. intros i Hi.
    rewrite (nth_repeat_lt _ _ Hi). unfold mean. f_equal. fold eps_pred. lra.
Qed.

Lemma clamp_id v : -1 <= v <= 1 -> clamp (-1) 1 v = v.
Proof.
  intros [H0 H1]. unfold clamp.
  rewrite Rmax_left by exact H0. now rewrite Rmin_left.
Qed.

(** The update at timestep 0 undoes the corruption at timestep 0. *)
Lemma step_zero_algebra b d e :
  0 < b < 1 ->
  1 / sqrt (1 - b)
  * (d * sqrt (1 * (1 - b)) + e * sqrt (1 - 1 * (1 - b))
     - (1 - (1 - b)) / sqrt (1 - 1 * (1 - b)) * e)
  + sqrt b * 0 = d.
Proof.
  intros Hb.
  replace (1 * (1 - b)) with (1 - b) by ring.
  replace (1 - (1 - b)) with b by ring.
  assert (Hs : 0 < sqrt (1 - b)) by (apply sqrt_lt_R0; lra).
  assert (Hr : 0 < sqrt b) by (apply sqrt_lt_R0; lra).
  assert (Hrr : sqrt b * sqrt b = b) by (apply sqrt_sqrt; lra).
  replace (b / sqrt b) with (sqrt b).
  - field. lra.
  - rewrite <- Hrr at 2. field. lra.
Qed.

(** C3 as the code has it: at timestep 0.  Corrupting a clean image with
    entries in [-1, 1] at [t = 0] and running the reverse step at [t = 0]
    with a network that returns the recorded [epsilon] gives back the
    image (in exact arithmetic). *)
Theorem round_trip_at_step_zero model res T beta_min beta_max x B C H W g :
  0 < beta_min -> beta_min < beta_max -> beta_max < 1 -> (1 <= T)%Z ->
  shape x = [B; C; H; W]%nat ->
  wf x ->
  Forall (fun v => -1 <= v <= 1) (data x) ->
  exists self noisy epsilon g1,
    init model res T (beta_min, beta_max) = Ok self
    /\ make_noisy self x (repeat 0%Z B) g = Ok ((noisy, epsilon), g1)
    /\ (Diffusion.model self noisy (repeat 0%Z B) = epsilon ->
        denoise_at_t self noisy (repeat 0%Z B) 0 g1 = Ok (x, g1)).
Proof.
  intros H0 H1 H2 HT Hx Hwf Hrange.
  destruct (@init_total model res T beta_min beta_max) as
    (self & Hinit & HnT & Hswf); [lia|].
  destruct (@init_head model res T beta_min beta_max self HT Hinit)
    as (Esb & Ea & Esa & Eso & Eab).
  assert (Ht0 : (0 <= 0 < n_times self)%Z) by lia.
  destruct (schedule_in_range Hswf Ht0) as (Hsb & Ha & Hsa & Hso & Hab).
  assert (Hts : length (repeat 0%Z B) = B) by apply repeat_length.
  assert (Hall : forall a, in_range a 0%Z -> Forall (in_range a) (repeat 0%Z B)).
  { intros a Hin. apply Forall_forall. intros k Hk.
    apply repeat_spec in Hk. now subst. }
  pose proof (make_noisy_run self x g Hx Hts (Hall _ Hab) (Hall _ Hso)) as Hrun.
  cbv zeta in Hrun.
  do 4 eexists. split; [exact Hinit|]. split; [exact Hrun|].
  intros Hmodel.
  match type of Hrun with
  | _ = Ok ((?nz, _), _) => set (noisy := nz) in *
  end.
  assert (Hnz : shape noisy = [B; C; H; W]%nat) by reflexivity.
  assert (He : shape (Diffusion.model self noisy (repeat 0%Z B)) = shape noisy).
  { rewrite Hmodel. cbn [shape]. exact Hx. }
  rewrite (denoise_at_t_run self noisy _ Hnz He Ha Hsa Hso Hsb).
  cbn [Z.ltb Z.compare]. f_equal. f_equal.
  destruct x as [sh d]. cbn [shape data] in *. subst sh.
  unfold wf in Hwf. cbn [shape data] in Hwf.
  rewrite Hnz. f_equal.
  transitivity (tabulate (length d) (fun i => nth i d 0)); [|apply tabulate_nth].
  rewrite Hwf. apply tabulate_ext. intros i Hi.
  rewrite Hmodel. cbn [data]. unfold noisy. cbn [data].
  change (B * numel [C; H; W])%nat with (numel [B; C; H; W]).
  rewrite (nth_tabulate _ _ Hi).
  assert (Hq : (i / numel [C; H; W] < B)%nat).
  { apply Nat.Div0.div_lt_upper_bound.
    change (numel [B; C; H; W]) with (B * numel [C; H; W])%nat in Hi. lia. }
  rewrite (nth_repeat_lt _ _ Hq).
  rewrite (nth_repeat_lt _ _ Hi).
  change (Z.to_nat 0) with 0%nat.
  rewrite Esb, Ea, Esa, Eso, Eab.
  rewrite step_zero_algebra by lra.
  apply clamp_id.
  apply (proj1 (Forall_forall _ _) Hrange).
  apply nth_In. now rewrite Hwf.
Qed.

End WithRandomSource.

Lemma make_noisy_closed_form_witness :
  exists self,
    init (fun x _ => x) (2, 2, 1)%nat 3 (1/2, 3/4) = Ok self
    /\ let x := mk [2; 1; 2; 2]%nat [1; 0; -1; 0; 1/2; 1; 0; -1/2] in
       let ts := [0; 2]%Z in
       exists noisy epsilon g',
         @make_noisy counter_source self x ts 1%nat = Ok ((noisy, epsilon), g')
         /\ (epsilon, g') = (mk (shape x) (fst (@randn counter_source 1%nat 8%nat)),
                             snd (@randn counter_source 1%nat 8%nat))
         /\ shape noisy = shape x
         /\ length (data noisy) = 8%nat
         /\ forall n j, (n < 2)%nat -> (j < 4)%nat ->
              let i := (n * 4 + j)%nat in
              let tn := Z.to_nat (nth n ts 0%Z) in
              nth i (data noisy) 0
              = nth i (data x) 0 * nth tn (sqrt_alpha_bars self) 0
                + nth i (data epsilon) 0
                  * nth tn (sqrt_one_minus_alpha_bars self) 0.
Proof.
  eexists. split; [reflexivity|].
  apply (@make_noisy_closed_form counter_source _
           (mk [2; 1; 2; 2]%nat [1; 0; -1; 0; 1/2; 1; 0; -1/2]) [0; 2]%Z
           2%nat [1; 2; 2]%nat 1%nat).
  - repeat split; reflexivity.
  - reflexivity.
  - reflexivity.
  - repeat constructor; simpl; lia.
Defined.

Lemma denoise_at_t_formula_witness :
  exists self,
    init (fun x _ => x) (1, 2, 1)%nat 3 (1/2, 3/4) = Ok self
    /\ let x := mk [1; 1; 1; 2]%nat [1/2; -1/4] in
       let eps_pred := model self x (repeat 2%Z 1) in
       let z := fst (@randn counter_source 1%nat 2%nat) in
       exists out g',
         @denoise_at_t counter_source self x (repeat 2%Z 1) 2 1%nat = Ok (out, g')
         /\ shape out = shape x
         /\ length (data out) = 2%nat
         /\ forall i, (i < 2)%nat ->
              nth i (data out) 0
              = clamp (-1) 1
                  (1 / nth 2 (sqrt_alphas self) 0
                   * (nth i (data x) 0
                      - (1 - nth 2 (alphas self) 0)
                        / nth 2 (sqrt_one_minus_alpha_bars self) 0
                        * nth i (data eps_pred) 0)
                   + nth 2 (sqrt_betas self) 0 * nth i z 0).
Proof.
  eexists. split; [reflexivity|].
  apply (@denoise_at_t_formula counter_source _
           (mk [1; 1; 1; 2]%nat [1/2; -1/4]) 2%Z 1%nat 1%nat 1%nat 1%nat 2%nat).
  - repeat split; reflexivity.
  - reflexivity.
  - simpl. lia.
  - reflexivity.
Defined.

Lemma denoise_at_t_noise_switch_witness :
  exists self,
    init (fun x _ => x) (1, 2, 1)%nat 3 (1/2, 3/4) = Ok self
    /\ let x := mk [1; 1; 1; 2]%nat [1/2; -1/4] in
       let mean k i :=
         1 / nth k (sqrt_alphas self) 0
         * (nth i (data x) 0
            - (1 - nth k (alphas self) 0)
              / nth k (sqrt_one_minus_alpha_bars self) 0
              * nth i (data (model self x (repeat (Z.of_nat k) 1))) 0) in
       (forall g : nat,
          @denoise_at_t counter_source self x (repeat 2%Z 1) 2 g =
          Ok (mk (shape x)
                (tabulate 2 (fun i =>
                   clamp (-1) 1
                     (mean 2%nat i
                      + nth 2 (sqrt_betas self) 0
                        * nth i (fst (@randn counter_source g 2%nat)) 0))),
              snd (@randn counter_source g 2%nat)))
       /\ (forall g : nat,
             @denoise_at_t counter_source self x (repeat 1%Z 1) 1 g =
             Ok (mk (shape x) (tabulate 2 (fun i => clamp (-1) 1 (mean 1%nat i))), g)).
Proof.
  eexists. split; [reflexivity|].
  split.
  - refine (proj1 (@denoise_at_t_noise_switch counter_source _
             (mk [1; 1; 1; 2]%nat [1/2; -1/4]) 2%Z 1%nat 1%nat 1%nat 2%nat
             _ _ _ _) _).
    + repeat split; reflexivity.
    + reflexivity.
    + simpl. lia.
    + reflexivity.
    + lia.
  - refine (proj2 (@denoise_at_t_noise_switch counter_source _
             (mk [1; 1; 1; 2]%nat [1/2; -1/4]) 1%Z 1%nat 1%nat 1%nat 2%nat
             _ _ _ _) _).
    + repeat split; reflexivity.
    + reflexivity.
    + simpl. lia.
    + reflexivity.
    + lia.
Defined.

Lemma round_trip_at_step_zero_witness :
  let x := mk [1; 1; 1; 2]%nat [1/2; -1/4] in
  let model := fun (_ : tensor) (_ : list Z) => mk [1; 1; 1; 2]%nat [1; 1] in
  exists self noisy epsilon g1,
    init model (1, 2, 1)%nat 3 (1/10000, 2/100) = Ok self
    /\ @make_noisy counter_source self x (repeat 0%Z 1) 1%nat
       = Ok ((noisy, epsilon), g1)
    /\ (Diffusion.model self noisy (repeat 0%Z 1) = epsilon ->
        @denoise_at_t counter_source self noisy (repeat 0%Z 1) 0 g1 = Ok (x, g1)).
Proof.
  apply (@round_trip_at_step_zero counter_source
           (fun _ _ => mk [1; 1; 1; 2]%nat [1; 1]) (1, 2, 1)%nat 3
           (1/10000) (2/100) (mk [1; 1; 1; 2]%nat [1/2; -1/4])
           1%nat 1%nat 1%nat 2%nat 1%nat).
  - lra.
  - lra.
  - lra.
  - lia.
  - reflexivity.
  - reflexivity.
  - repeat constructor; simpl; lra.
Defined.

(** C3, refuted as stated: with two steps and bounds [1/2] and [3/4],
    corrupting the one-pixel image [1] at [t = 1] (the draw is 0) and
    running the reverse step at [t = 1] with a network that returns the
    recorded [epsilon] gives [sqrt (1/2)], more than [1/4] away from the
    image. *)
Lemma round_trip_fails_at_step_one :
  let x := mk [1; 1; 1; 1]%nat [1] in
  let model := fun (_ : tensor) (_ : list Z) => mk [1; 1; 1; 1]%nat [0] in
  exists self noisy epsilon g1 out g2,
    init model (1, 1, 1)%nat 2 (1/2, 3/4) = Ok self
    /\ @make_noisy counter_source self x [1%Z] 0%nat = Ok ((noisy, epsilon), g1)
    /\ Diffusion.model self noisy [1%Z] = epsilon
    /\ @denoise_at_t counter_source self noisy [1%Z] 1 g1 = Ok (out, g2)
    /\ nth 0 (data out) 0 = sqrt (1/2)
    /\ 1/4 < Rabs (nth 0 (data out) 0 - nth 0 (data x) 0).
Proof.
  intros x model.
  eexists. eexists. eexists. eexists. eexists. eexists.
  split; [reflexivity|].
  split.
  { apply (@make_noisy_run counter_source _ x [1%Z] 1%nat [1; 1; 1]%nat 0%nat);
      try reflexivity; repeat constructor; unfold in_range; simpl; lia. }
  split; [reflexivity|].
  split.
  { apply (@denoise_at_t_run counter_source _ _ 1%Z _ 1%nat 1%nat 1%nat 1%nat);
      try reflexivity; unfold in_range; simpl; lia. }
  cbn -[sqrt Rdiv Rminus IZR clamp].
  change (Pos.to_nat 1) with 1%nat. change (Pos.to_nat 2) with 2%nat.
  cbn -[sqrt Rdiv Rminus IZR clamp].
  set (v := clamp _ _ _).
  assert (Ha : 0 <= sqrt (1 / 2)) by apply sqrt_pos.
  assert (Hlt : sqrt (1 / 2) < 3 / 4).
  { rewrite <- (sqrt_square (3 / 4)) by lra. apply sqrt_lt_1; lra. }
  assert (Hb : 0 < sqrt (1 / 4)) by (apply sqrt_lt_R0; lra).
  assert (Hv : v = sqrt (1 / 2)).
  { unfold v.
    replace (1 - (1 / 2 + 1 * ((3 / 4 - 1 / 2) / (2 - 1)))) with (1 / 4) by field.
    replace (1 * (1 - (1 / 2 + 0 * ((3 / 4 - 1 / 2) / (2 - 1)))) * (1 / 4))
      with (1 / 2 * (1 / 4)) by field.
    rewrite sqrt_mult by lra.
    assert (Hc : 0 < sqrt (1 - 1 / 2 * (1 / 4))) by (apply sqrt_lt_R0; lra).
    match goal with
    | |- clamp _ _ ?e = _ =>
        replace e with (sqrt (1 / 2)) by (field; split; apply Rgt_not_eq; lra)
    end.
    apply clamp_id. lra. }
  split; [exact Hv|].
  rewrite Hv, Rabs_left by lra. lra.
Qed.

End ProcessFacts.

(** ** The smoothing kernel *)

Module WindowFacts.

Import Tensor TensorFacts SSIM.
Open Scope R_scope.

Lemma Rsum_app l1 l2 : Rsum (l1 ++ l2) = Rsum l1 + Rsum l2.
Proof. induction l1 as [|a l1 IH]; simpl; [lra|rewrite IH; lra]. Qed.

Lemma Rsum_map_div {A} (f : A -> R) S l :
  Rsum (map (fun x => f x / S) l) = Rsum (map f l) / S.
Proof.
  induction l as [|a l IH]; simpl.
  - unfold Rdiv. now rewrite Rmult_0_l.
  - rewrite IH. unfold Rdiv. ring.
Qed.

Lemma Rsum_map_scale {A} (f : A -> R) c l :
  Rsum (map (fun x => c * f x) l) = c * Rsum (map f l).
Proof. induction l as [|a l IH]; simpl; [ring|rewrite IH; ring]. Qed.

Lemma Rsum_positive l :
  l <> [] -> Forall (fun v => 0 < v) l -> 0 < Rsum l.
Proof.
  intros Hne H. induction H as [|a l Ha Hl IH]; [congruence|].
  simpl. destruct l as [|b l'].
  - simpl. lra.
  - assert (0 < Rsum (b :: l')) by (apply IH; discriminate). lra.
Qed.

Lemma Rsum_repeat c n : Rsum (repeat c n) = INR n * c.
Proof.
  induction n as [|n IH]; [simpl; ring|].
  rewrite S_INR. cbn [repeat Rsum fold_right]. fold (Rsum (repeat c n)).
  rewrite IH. ring.
Qed.

Lemma Rsum_list_prod {A B} (f : A * B -> R) l1 l2 :
  Rsum (map f (list_prod l1 l2))
  = Rsum (map (fun a => Rsum (map (fun b => f (a, b)) l2)) l1).
Proof.
  induction l1 as [|a l1 IH]; [reflexivity|].
  cbn [list_prod]. rewrite map_app, Rsum_app, IH, map_map. reflexivity.
Qed.

Lemma bell_positive size sigma : Forall (fun v => 0 < v) (bell size sigma).
Proof.
  unfold bell. apply Forall_map. apply Forall_forall. intros c _. apply exp_pos.
Qed.

Lemma bell_length size sigma : length (bell size sigma) = size.
Proof. unfold bell. now rewrite length_map, tabulate_length. Qed.

Lemma bell_sum_positive size sigma : (1 <= size)%nat -> 0 < Rsum (bell size sigma).
Proof.
  intros Hs. apply Rsum_positive; [|apply bell_positive].
  intros E. apply (f_equal (@length R)) in E. rewrite bell_length in E.
  simpl in E. lia.
Qed.

Lemma gaussian_window_bell size sigma :
  gaussian_window size sigma
  = map (fun v => v / Rsum (bell size sigma)) (bell size sigma).
Proof. reflexivity. Qed.

Lemma gaussian_window_length size sigma : length (gaussian_window size sigma) = size.
Proof. rewrite gaussian_window_bell, length_map. apply bell_length. Qed.

Lemma gaussian_window_sum size sigma :
  (1 <= size)%nat -> Rsum (gaussian_window size sigma) = 1.
Proof.
  intros Hs. rewrite gaussian_window_bell.
  rewrite (Rsum_map_div (fun v => v)), map_id.
  pose proof (bell_sum_positive sigma Hs). field. lra.
Qed.

Lemma gaussian_window_nonneg size sigma a :
  (1 <= size)%nat -> 0 <= nth a (gaussian_window size sigma) 0.
Proof.
  intros Hs. destruct (Nat.lt_ge_cases a size) as [Ha|Ha].
  - rewrite gaussian_window_bell.
    rewrite (@nth_indep _ _ a 0 (0 / Rsum (bell size sigma)))
      by (rewrite length_map, bell_length; exact Ha).
    rewrite (map_nth (fun v => v / Rsum (bell size sigma))).
    pose proof (bell_sum_positive sigma Hs) as HS.
    assert (Hb : 0 < nth a (bell size sigma) 0).
    { apply (proj1 (Forall_forall _ _) (bell_positive size sigma)).
      apply nth_In. now rewrite bell_length. }
    left. apply Rdiv_lt_0_compat; assumption.
  - rewrite nth_overflow by (rewrite gaussian_window_length; exact Ha). lra.
Qed.

End WindowFacts.

(** ** The SSIM object and its forward pass *)

Module SSIMFacts.

Import Tensor TensorFacts SSIM WindowFacts.
Open Scope R_scope.

Lemma get_col (g : list R) ws i :
  (i < ws * ws)%nat ->
  get [ws; 1%nat] g (unravel [ws; ws] i) = nth (i / ws) g 0.
Proof.
  intros Hi. unfold get. cbn [unravel bidx ravel numel fold_right Nat.eqb].
  rewrite !Nat.mul_1_r, !Nat.add_0_r.
  destruct (Nat.eqb_spec ws 1) as [->|_]; [|reflexivity].
  now rewrite Nat.div_small by lia.
Qed.

Lemma get_row (g : list R) ws i :
  (i < ws * ws)%nat ->
  get [1%nat; ws] g (unravel [ws; ws] i) = nth (i mod ws) g 0.
Proof.
  intros Hi. unfold get. cbn [unravel bidx ravel numel fold_right Nat.eqb].
  rewrite !Nat.mul_1_r, Nat.mul_0_l, Nat.add_0_l, Nat.add_0_r, Nat.div_1_r.
  destruct (Nat.eqb_spec ws 1) as [->|_]; [|reflexivity].
  now rewrite Nat.mod_1_r.
Qed.

(** The outer product [col * row] of [create_window]. *)
Lemma outer_product (g : list R) ws :
  bop Rmult (mk [ws; 1%nat] g) (mk [1%nat; ws] g)
  = Ok (mk [ws; ws]
          (tabulate (numel [ws; ws])
             (fun i => nth (i / ws) g 0 * nth (i mod ws) g 0))).
Proof.
  unfold bop. cbn [shape data length Nat.max pad_left Nat.sub repeat app].
  assert (E : bdims [ws; 1%nat] [1%nat; ws] = Some [ws; ws])
    by (destruct ws as [|[|n]]; reflexivity).
  rewrite E. do 2 f_equal. apply tabulate_ext. intros i Hi. cbv zeta.
  assert (Hi' : (i < ws * ws)%nat) by (simpl in Hi; lia).
  now rewrite get_col, get_row.
Qed.

(** The constructor always succeeds; the kernel it stores is the outer
    product of the normalised Gaussian, as a float32 tensor on the CPU. *)
Lemma init_run window_size sigma :
  let g := gaussian_window window_size sigma in
  init window_size sigma
  = Ok (Build window_size sigma 1
          (Place (mk [1%nat; 1%nat; window_size; window_size]
                    (tabulate (numel [window_size; window_size])
                       (fun i => nth (i / window_size) g 0
                                 * nth (i mod window_size) g 0)))
             Float32 CPU)).
Proof.
  intros g. unfold init, create_window. fold g.
  unfold reshape at 1. cbn [data numel fold_right].
  replace (window_size * (1 * 1))%nat with window_size by lia.
  unfold g at 1. rewrite gaussian_window_length, Nat.eqb_refl. cbn [rbind].
  unfold reshape at 1. cbn [data numel fold_right].
  replace (1 * (window_size * 1))%nat with window_size by lia.
  unfold g at 1. rewrite gaussian_window_length, Nat.eqb_refl. cbn [rbind].
  rewrite outer_product. cbn [rbind].
  unfold reshape. cbn [data]. rewrite tabulate_length.
  replace (numel [1%nat; 1%nat; window_size; window_size])
    with (numel [window_size; window_size]) by (simpl; lia).
  rewrite Nat.eqb_refl. cbn [rbind].
  unfold expand. cbn [shape data expandable Nat.eqb].
  rewrite !Nat.eqb_refl. cbn [orb andb rbind].
  do 4 f_equal.
  replace (numel [1%nat; 1%nat; window_size; window_size])
    with (numel [window_size; window_size]) by (simpl; lia).
  apply tabulate_ext. intros i Hi.
  rewrite get_same by (simpl in *; lia).
  now rewrite nth_tabulate.
Qed.

(** C9 as the code has it: [forward] rebinds the stored kernel to the
    kernel converted to the precision and the device of [img1].  The other
    attributes and the contents of the kernel stay; the object is the one
    it was exactly when [img1] already has the precision and the device of
    the stored kernel. *)
Theorem forward_rebinds_window (self : SSIM.t) (img1 img2 : ptensor) :
  let self' := fst (forward self img1 img2) in
  window_size self' = window_size self
  /\ sigma self' = sigma self
  /\ channel self' = channel self
  /\ window self' = Place (payload (window self)) (dtype_of img1) (device_of img1)
  /\ (self' = self <->
      dtype_of (window self) = dtype_of img1
      /\ device_of (window self) = device_of img1).
Proof.
  destruct self as [ws sg ch [w dt dv]]. cbn. unfold to_device, to_dtype. cbn.
  do 4 (split; [reflexivity|]). split.
  - intros E. injection E as E1 E2. now split.
  - intros [<- <-]. reflexivity.
Qed.

(** C9, refuted as stated: after a call on a half-precision image on a GPU
    the stored kernel is no longer the one built at construction. *)
Lemma forward_replaces_cached_window :
  let img := Place (mk [1; 1; 28; 28]%nat (repeat 0 784)) Float16 (CUDA 0) in
  exists self,
    init 11 1.5 = Ok self
    /\ window (fst (forward self img img)) <> window self
    /\ fst (forward self img img) <> self.
Proof.
  intros img. eexists. split; [apply init_run|].
  cbn [forward fst window to_dtype to_device dtype_of device_of payload].
  split; intros E.
  - apply (f_equal dtype_of) in E. discriminate E.
  - apply (f_equal (fun s => dtype_of (window s))) in E. discriminate E.
Qed.

(** *** A weighted average of squares dominates the squared average *)

Lemma Rsum_nonneg l : Forall (fun v => 0 <= v) l -> 0 <= Rsum l.
Proof. induction 1; simpl; lra. Qed.

Lemma weighted_square_expand {A} (w v : A -> R) m L :
  Rsum (map (fun k => w k * ((v k - m) * (v k - m))) L)
  = Rsum (map (fun k => w k * (v k * v k)) L)
    - 2 * m * Rsum (map (fun k => w k * v k) L)
    + m * m * Rsum (map w L).
Proof. induction L as [|a L IH]; simpl; [ring|rewrite IH; ring]. Qed.

Lemma weighted_variance_nonneg {A} (w v : A -> R) L :
  (forall k, In k L -> 0 <= w k) ->
  Rsum (map w L) = 1 ->
  0 <= Rsum (map (fun k => w k * (v k * v k)) L)
       - Rsum (map (fun k => w k * v k) L) ^ 2.
Proof.
  intros Hw H1.
  set (m := Rsum (map (fun k => w k * v k) L)).
  assert (H : 0 <= Rsum (map (fun k => w k * ((v k - m) * (v k - m))) L)).
  { apply Rsum_nonneg. apply Forall_map. apply Forall_forall. intros k Hk.
    apply Rmult_le_pos; [now apply Hw|]. exact (Rle_0_sqr _). }
  rewrite weighted_square_expand, H1 in H. fold m in H.
  clearbody m. lra.
Qed.

(** *** The convolution with the stored kernel *)

Lemma promote_same d : promote d d = d.
Proof. now destruct d. Qed.

Lemma dtype_eqb_refl d : dtype_eqb d d = true.
Proof. now destruct d. Qed.

Lemma device_eqb_refl d : device_eqb d d = true.
Proof. destruct d; simpl; [reflexivity|apply Nat.eqb_refl]. Qed.

Lemma pbop_same f a b dt dv :
  shape a = shape b ->
  pbop f (Place a dt dv) (Place b dt dv)
  = Ok (Place (mk (shape a)
                 (tabulate (numel (shape a))
                    (fun i => f (nth i (data a) 0) (nth i (data b) 0))))
          dt dv).
Proof.
  intros E. unfold pbop. cbn [device_of dtype_of payload].
  rewrite device_eqb_refl, (bop_same f a b E), promote_same. reflexivity.
Qed.

(** With one channel and the kernel of [init], a convolution entry is the
    average of the padded window under the weights [g[a] * g[b]]. *)
Lemma conv_at_window N H W d ws (g : list R) p n i j :
  conv_at [N; 1%nat; H; W] d [1%nat; 1%nat; ws; ws]
    (tabulate (numel [ws; ws]) (fun k => nth (k / ws) g 0 * nth (k mod ws) g 0))
    p 1 n 0 i j
  = Rsum (map (fun ab => nth (fst ab) g 0 * nth (snd ab) g 0
                         * padded_at [N; 1%nat; H; W] d p n 0
                             (i + fst ab) (j + snd ab))
            (list_prod (seq 0 ws) (seq 0 ws))).
Proof.
  unfold conv_at.
  cbn [seq list_prod].
  rewrite app_nil_r, map_map.
  f_equal. apply map_ext_in. intros [a b] Hin.
  apply in_prod_iff in Hin. destruct Hin as [Ha Hb].
  apply in_seq in Ha. apply in_seq in Hb.
  cbn [fst snd ravel numel fold_right].
  assert (Hk : (0 * (1 * (ws * (ws * 1))) + (0 * (ws * (ws * 1))
                + (a * (ws * 1) + (b * 1 + 0))) = a * ws + b)%nat) by lia.
  rewrite Hk.
  assert (Hlt : (a * ws + b < ws * (ws * 1))%nat) by nia.
  rewrite (nth_tabulate _ _ Hlt).
  rewrite Nat.div_add_l, (Nat.div_small b), Nat.add_0_r by lia.
  rewrite Nat.add_comm, Nat.Div0.mod_add, (Nat.mod_small b) by lia.
  reflexivity.
Qed.

Lemma padded_at_square N H W d p n u v :
  (n < N)%nat ->
  padded_at [N; 1%nat; H; W]
    (tabulate (numel [N; 1%nat; H; W]) (fun i => nth i d 0 * nth i d 0)) p n 0 u v
  = padded_at [N; 1%nat; H; W] d p n 0 u v
    * padded_at [N; 1%nat; H; W] d p n 0 u v.
Proof.
  intros Hn. unfold padded_at.
  destruct ((p <=? u)%nat && (u <? p + H)%nat && (p <=? v)%nat && (v <? p + W)%nat)
    eqn:E; [|ring].
  apply andb_prop in E. destruct E as [E Hv2].
  apply andb_prop in E. destruct E as [E Hv1].
  apply andb_prop in E. destruct E as [Hu1 Hu2].
  apply Nat.leb_le in Hu1, Hv1. apply Nat.ltb_lt in Hu2, Hv2.
  rewrite nth_tabulate; [reflexivity|].
  cbn [ravel numel fold_right]. rewrite !Nat.mul_1_r, Nat.mul_1_l.
  assert (Hin : ((u - p) * W + (v - p) < H * W)%nat) by nia.
  assert (Hs : (S n * (H * W) <= N * (H * W))%nat)
    by (apply Nat.mul_le_mono_r; lia).
  lia.
Qed.

Lemma window_weights_sum ws (g : list R) :
  length g = ws -> Rsum g = 1 ->
  Rsum (map (fun ab => nth (fst ab) g 0 * nth (snd ab) g 0)
          (list_prod (seq 0 ws) (seq 0 ws))) = 1.
Proof.
  intros Hl Hs. rewrite Rsum_list_prod. cbn [fst snd].
  assert (Hg : map (fun b => nth b g 0) (seq 0 ws) = g).
  { rewrite <- Hl. apply (tabulate_nth g 0). }
  rewrite (map_ext _ (fun a => nth a g 0 * 1)).
  - rewrite (map_ext _ (fun a => 1 * nth a g 0)) by (intros; ring).
    rewrite Rsum_map_scale, Hg, Hs. ring.
  - intros a. rewrite Rsum_map_scale, Hg, Hs. reflexivity.
Qed.

(** The windowed second moment dominates the squared windowed mean. *)
Lemma local_variance_nonneg N H W d ws sigma p n i j :
  (1 <= ws)%nat -> (n < N)%nat ->
  let w := tabulate (numel [ws; ws])
             (fun k => nth (k / ws) (gaussian_window ws sigma) 0
                       * nth (k mod ws) (gaussian_window ws sigma) 0) in
  let xsh := [N; 1%nat; H; W] in
  let wsh := [1%nat; 1%nat; ws; ws] in
  0 <= conv_at xsh (tabulate (numel xsh) (fun k => nth k d 0 * nth k d 0))
         wsh w p 1 n 0 i j
       - conv_at xsh d wsh w p 1 n 0 i j ^ 2.
Proof.
  intros Hws Hn w xsh wsh. unfold w, xsh, wsh.
  rewrite !conv_at_window.
  rewrite (map_ext _
             (fun ab => nth (fst ab) (gaussian_window ws sigma) 0
                        * nth (snd ab) (gaussian_window ws sigma) 0
                        * (padded_at [N; 1%nat; H; W] d p n 0 (i + fst ab) (j + snd ab)
                           * padded_at [N; 1%nat; H; W] d p n 0
                               (i + fst ab) (j + snd ab))))
    by (intros ab; now rewrite padded_at_square).
  apply (weighted_variance_nonneg
           (fun ab => nth (fst ab) (gaussian_window ws sigma) 0
                      * nth (snd ab) (gaussian_window ws sigma) 0)
           (fun ab => padded_at [N; 1%nat; H; W] d p n 0 (i + fst ab) (j + snd ab))).
  - intros ab _. apply Rmult_le_pos; now apply gaussian_window_nonneg.
  - apply window_weights_sum.
    + apply gaussian_window_length.
    + now apply gaussian_window_sum.
Qed.

Lemma conv2d_run N H W d dt dv ws wd :
  (1 <= ws)%nat -> (1 <= H)%nat -> (1 <= W)%nat ->
  let p := (ws / 2)%nat in
  let osh := [N; 1%nat; (H + 2 * p - ws + 1)%nat; (W + 2 * p - ws + 1)%nat] in
  conv2d (Place (mk [N; 1%nat; H; W] d) dt dv)
    (Place (mk [1%nat; 1%nat; ws; ws] wd) dt dv) p 1
  = Ok (Place
          (mk osh
             (tabulate (numel osh)
                (fun k =>
                   conv_at [N; 1%nat; H; W] d [1%nat; 1%nat; ws; ws] wd p 1
                     (nth 0 (unravel osh k) 0%nat) 0
                     (nth 2 (unravel osh k) 0%nat) (nth 3 (unravel osh k) 0%nat))))
          dt dv).
Proof.
  intros Hws HH HW p osh. unfold conv2d.
  cbn [dtype_of device_of payload shape data].
  rewrite dtype_eqb_refl, device_eqb_refl. cbn [andb negb].
  unfold conv2d_nchw. cbn [shape data].
  assert (Hp : (ws <= 2 * p + 1)%nat).
  { unfold p. pose proof (Nat.div_mod_eq ws 2).
    pose proof (Nat.mod_upper_bound ws 2). lia. }
  assert (C1 : (ws <=? H + 2 * p)%nat = true) by (apply Nat.leb_le; lia).
  assert (C2 : (ws <=? W + 2 * p)%nat = true) by (apply Nat.leb_le; lia).
  assert (C3 : (0 <? ws)%nat = true) by (apply Nat.ltb_lt; lia).
  rewrite C1, C2, C3.
  change (0 <? 1)%nat with true. change (1 * 1 =? 1)%nat with true.
  change (1 mod 1 =? 0)%nat with true. cbn [andb rbind].
  fold osh. do 3 f_equal. apply tabulate_ext. intros k Hk.
  unfold osh. cbn [unravel nth].
  set (Ho := (H + 2 * p - ws + 1)%nat) in *.
  set (Wo := (W + 2 * p - ws + 1)%nat) in *.
  replace (k mod numel [1%nat; Ho; Wo] / numel [Ho; Wo])%nat with 0%nat;
    [reflexivity|].
  symmetry. apply Nat.div_small.
  replace (numel [1%nat; Ho; Wo]) with (numel [Ho; Wo]) by (simpl; lia).
  apply Nat.mod_upper_bound. unfold osh in Hk. simpl in Hk. simpl. nia.
Qed.

Lemma pmap_place f sh F n dt dv :
  pmap f (Place (mk sh (tabulate n F)) dt dv)
  = Place (mk sh (tabulate n (fun k => f (F k)))) dt dv.
Proof. unfold pmap, tmap. cbn [payload shape data dtype_of device_of].
  now rewrite map_tabulate. Qed.

Lemma pbop_tabulate f sh F G dt dv :
  pbop f (Place (mk sh (tabulate (numel sh) F)) dt dv)
         (Place (mk sh (tabulate (numel sh) G)) dt dv)
  = Ok (Place (mk sh (tabulate (numel sh) (fun k => f (F k) (G k)))) dt dv).
Proof.
  rewrite pbop_same by reflexivity. cbn [shape data]. do 3 f_equal.
  apply tabulate_ext. intros k Hk. now rewrite !nth_tabulate.
Qed.

(** With equal operands the ratio of the SSIM map is a positive number
    over itself. *)
Lemma ssim_ratio_self m q :
  0 <= q - m ^ 2 ->
  clamp 0 1
    ((2 * m * m + 0.01 ^ 2) * (2 * (q - m * m) + 0.03 ^ 2)
     / ((m ^ 2 + m ^ 2 + 0.01 ^ 2) * (q - m ^ 2 + (q - m ^ 2) + 0.03 ^ 2)))
  = 1.
Proof.
  intros Hv.
  assert (Hm : 0 <= m ^ 2) by (apply pow2_ge_0).
  set (num := (2 * m * m + 0.01 ^ 2) * (2 * (q - m * m) + 0.03 ^ 2)).
  assert (Hnum : 0 < num).
  { unfold num. apply Rmult_lt_0_compat; nra. }
  replace ((m ^ 2 + m ^ 2 + 0.01 ^ 2) * (q - m ^ 2 + (q - m ^ 2) + 0.03 ^ 2))
    with num by (unfold num; ring).
  replace (num / num) with 1 by (field; lra).
  unfold clamp. rewrite Rmax_left by lra. apply Rmin_left. lra.
Qed.

(** C8: for every window size [ws >= 1] and every [sigma <> 0] (so that
    the division in [gaussian_window] is a division), the SSIM score of a
    non-empty single-channel image batch with itself is the scalar 1: at
    every pixel the numerator and the denominator of the SSIM map are the
    same positive number (the windowed variance is not negative), so the
    clamped map is 1 everywhere and so is its mean. *)
Theorem ssim_of_image_with_itself ws sg img N H W :
  (1 <= ws)%nat -> sg <> 0 ->
  shape (payload img) = [N; 1%nat; H; W] ->
  (1 <= N)%nat -> (1 <= H)%nat -> (1 <= W)%nat ->
  exists self,
    init ws sg = Ok self
    /\ snd (forward self img img)
       = Ok (Place (mk [] [1]) (dtype_of img) (device_of img)).
Proof.
  intros Hws Hsg Hsh HN HH HW.
  eexists. split; [apply init_run|].
  destruct img as [[sh d] dt dv]. cbn [payload shape] in Hsh. subst sh.
  unfold forward.
  cbn [snd window window_size channel dtype_of device_of payload].
  unfold to_device, to_dtype. cbn [payload dtype_of device_of].
  set (wd := tabulate (numel [ws; ws]) _).
  rewrite (conv2d_run N d dt dv wd Hws HH HW). cbn [rbind].
  rewrite (@pbop_same Rmult (mk [N; 1%nat; H; W] d) (mk [N; 1%nat; H; W] d) dt dv eq_refl).
  cbn [rbind shape data].
  rewrite (conv2d_run N _ dt dv wd Hws HH HW). cbn [rbind].
  repeat (progress (rewrite ?pmap_place, ?pbop_tabulate; cbn [rbind])).
  set (osh := [N; 1%nat; (H + 2 * (ws / 2) - ws + 1)%nat;
               (W + 2 * (ws / 2) - ws + 1)%nat]).
  unfold mean. cbn [payload data dtype_of device_of]. do 4 f_equal.
  assert (Hpos : (0 < numel osh)%nat) by (unfold osh; simpl; nia).
  rewrite (@tabulate_ext R (numel osh) _ (fun _ => 1)).
  - rewrite tabulate_repeat, Rsum_repeat, repeat_length.
    assert (0 < INR (numel osh)) by (apply lt_0_INR; exact Hpos).
    field. lra.
  - intros k Hk.
    assert (Hn : (nth 0 (unravel osh k) 0 < N)%nat).
    { unfold osh. cbn [unravel nth]. apply Nat.Div0.div_lt_upper_bound.
      unfold osh in Hk. cbn [numel fold_right] in *. lia. }
    pose proof (@local_variance_nonneg N H W d ws sg (ws / 2)
                  (nth 0 (unravel osh k) 0%nat)
                  (nth 2 (unravel osh k) 0%nat) (nth 3 (unravel osh k) 0%nat)
                  Hws Hn) as Hvar.
    cbv zeta in Hvar. fold wd in Hvar.
    now apply ssim_ratio_self.
Qed.

Lemma ssim_of_image_with_itself_witness :
  let img := Place (mk [1; 1; 2; 2]%nat [0; 1/4; 1/2; 1]) Float16 (CUDA 0) in
  exists self,
    init 11 1.5 = Ok self
    /\ snd (forward self img img) = Ok (Place (mk [] [1]) Float16 (CUDA 0)).
Proof.
  apply (@ssim_of_image_with_itself 11 1.5
           (Place (mk [1; 1; 2; 2]%nat [0; 1/4; 1/2; 1]) Float16 (CUDA 0))
           1 2 2).
  - lia.
  - lra.
  - reflexivity.
  - lia.
  - lia.
  - lia.
Defined.

End SSIMFacts.

(** * Further properties of the code *)

(** ** The schedule the constructor builds *)

Module ScheduleExtra.

Import Tensor Diffusion ScheduleFacts.
Open Scope R_scope.

Lemma cumprod_from_nth_succ l acc i :
  (S i < length l)%nat ->
  nth (S i) (cumprod_from acc l) 0
  = nth i (cumprod_from acc l) 0 * nth (S i) l 0.
Proof.
  revert acc i. induction l as [|a l IH]; intros acc i Hi; [simpl in Hi; lia|].
  destruct i as [|i].
  - destruct l as [|b l]; [simpl in Hi; lia|]. reflexivity.
  - cbn [cumprod_from nth]. apply IH. simpl in Hi. lia.
Qed.

Lemma sqrt_unit_interval x : 0 < x < 1 -> 0 < sqrt x < 1.
Proof.
  intros Hx. split; [apply sqrt_lt_R0; lra|].
  apply (Rlt_le_trans _ (sqrt 1)); [apply sqrt_lt_1; lra|rewrite sqrt_1; lra].
Qed.

(** The arrays of a schedule, read off the linearly spaced betas. *)
Lemma init_arrays model res T beta_min beta_max :
  (0 <= T)%Z ->
  exists betas,
    linspace beta_min beta_max T = Ok betas
    /\ length betas = Z.to_nat T
    /\ init model res T (beta_min, beta_max)
       = Ok (Build T (fst (fst res)) (snd (fst res)) (snd res) model
               (map sqrt betas)
               (map (fun b => 1 - b) betas)
               (map sqrt (map (fun b => 1 - b) betas))
               (map (fun ab => sqrt (1 - ab)) (cumprod (map (fun b => 1 - b) betas)))
               (map sqrt (cumprod (map (fun b => 1 - b) betas)))).
Proof.
  intros HT. destruct res as [[H W] C].
  destruct (@linspace_total beta_min beta_max T HT) as [betas E].
  exists betas. split; [exact E|]. split; [now apply linspace_length in E|].
  apply (@init_unfold model H W C _ _ _ _ E).
Qed.

Lemma betas_in_bounds beta_min beta_max T betas i :
  valid_hyperparameters beta_min beta_max T ->
  linspace beta_min beta_max T = Ok betas ->
  (i < length betas)%nat ->
  beta_min <= nth i betas 0 <= beta_max.
Proof.
  intros (H0 & H1 & H2 & HT) E Hi.
  assert (Hle : beta_min <= beta_max) by lra.
  pose proof (@linspace_bounds beta_min beta_max T betas Hle E) as Hb.
  exact (proj1 (Forall_forall _ _) Hb _ (nth_In betas 0 Hi)).
Qed.

(** X1: for valid hyperparameters the signal coefficient [sqrt_alpha_bars]
    strictly decreases and the noise coefficient
    [sqrt_one_minus_alpha_bars] strictly increases from each timestep to the
    next. *)
Theorem schedule_strictly_monotone model res (T : Z) (beta_min beta_max : R) :
  0 < beta_min -> beta_min < beta_max -> beta_max < 1 -> (1 <= T)%Z ->
  exists self,
    init model res T (beta_min, beta_max) = Ok self
    /\ forall t : nat, (Z.of_nat t + 1 < T)%Z ->
         nth (S t) (sqrt_alpha_bars self) 0 < nth t (sqrt_alpha_bars self) 0
         /\ nth t (sqrt_one_minus_alpha_bars self) 0
            < nth (S t) (sqrt_one_minus_alpha_bars self) 0.
Proof.
  intros H0 H1 H2 HT.
  assert (Hv : valid_hyperparameters beta_min beta_max T) by (repeat split; assumption).
  destruct (@init_arrays model res T beta_min beta_max) as (betas & E & Hlen & Hinit);
    [lia|].
  eexists. split; [exact Hinit|]. intros t Ht.
  cbn [sqrt_alpha_bars sqrt_one_minus_alpha_bars].
  pose proof (alpha_bars_bounds Hv E) as Hab.
  set (al := map (fun b => 1 - b) betas) in *.
  set (abs := cumprod al) in *.
  assert (Hal : length al = Z.to_nat T) by (unfold al; now rewrite length_map).
  assert (Habs : length abs = Z.to_nat T)
    by (unfold abs, cumprod; now rewrite cumprod_from_length).
  assert (Ht0 : (t < length abs)%nat) by lia.
  assert (Ht1 : (S t < length abs)%nat) by lia.
  rewrite !(nth_map_in sqrt abs 0 0) by assumption.
  rewrite !(nth_map_in (fun ab => sqrt (1 - ab)) abs 0 0) by assumption.
  pose proof (proj1 (Forall_forall _ _) Hab _ (nth_In abs 0 Ht0)) as P0.
  pose proof (proj1 (Forall_forall _ _) Hab _ (nth_In abs 0 Ht1)) as P1.
  cbv beta in P0, P1.
  assert (Hstep : nth (S t) abs 0 = nth t abs 0 * nth (S t) al 0).
  { unfold abs, cumprod. apply cumprod_from_nth_succ. lia. }
  assert (Ha : 0 < nth (S t) al 0 < 1).
  { unfold al. rewrite (nth_map_in (fun b => 1 - b) betas 0 0) by lia.
    assert (Hi : (S t < length betas)%nat) by lia.
    pose proof (betas_in_bounds Hv E Hi). lra. }
  assert (Hlt : nth (S t) abs 0 < nth t abs 0) by (rewrite Hstep; nra).
  split; apply sqrt_lt_1; lra.
Qed.

Lemma schedule_strictly_monotone_witness :
  exists self,
    init (fun x _ => x) (28, 28, 1)%nat 1000 (1/10000, 2/100) = Ok self
    /\ forall t : nat, (Z.of_nat t + 1 < 1000)%Z ->
         nth (S t) (sqrt_alpha_bars self) 0 < nth t (sqrt_alpha_bars self) 0
         /\ nth t (sqrt_one_minus_alpha_bars self) 0
            < nth (S t) (sqrt_one_minus_alpha_bars self) 0.
Proof.
  apply (@schedule_strictly_monotone (fun x _ => x) (28, 28, 1)%nat 1000
           (1/10000) (2/100)); [lra | lra | lra | lia].
Defined.

(** X2: for valid hyperparameters the stored arrays agree with each other
    at every timestep: [sqrt_alphas] squared is [alphas], [sqrt_betas]
    squared is [1 - alphas], and [alphas] lies strictly between 0 and 1. *)
Theorem schedule_arrays_consistent model res (T : Z) (beta_min beta_max : R) :
  0 < beta_min -> beta_min < beta_max -> beta_max < 1 -> (1 <= T)%Z ->
  exists self,
    init model res T (beta_min, beta_max) = Ok self
    /\ forall t : Z, (0 <= t < T)%Z ->
         let k := Z.to_nat t in
         nth k (sqrt_alphas self) 0 ^ 2 = nth k (alphas self) 0
         /\ nth k (sqrt_betas self) 0 ^ 2 = 1 - nth k (alphas self) 0
         /\ 0 < nth k (alphas self) 0 < 1.
Proof.
  intros H0 H1 H2 HT.
  assert (Hv : valid_hyperparameters beta_min beta_max T) by (repeat split; assumption).
  destruct (@init_arrays model res T beta_min beta_max) as (betas & E & Hlen & Hinit);
    [lia|].
  eexists. split; [exact Hinit|]. intros t Ht k.
  cbn [sqrt_alphas sqrt_betas alphas].
  assert (Hk : (k < length betas)%nat) by (unfold k; lia).
  assert (Hk' : (k < length (map (fun b : R => (1 - b)%R) betas))%nat)
    by now rewrite length_map.
  rewrite (nth_map_in sqrt _ 0 0 Hk').
  rewrite (nth_map_in sqrt betas 0 0 Hk).
  rewrite (nth_map_in (fun b => 1 - b) betas 0 0 Hk).
  pose proof (betas_in_bounds Hv E Hk) as Hb.
  rewrite !pow2_sqrt by lra. repeat split; lra.
Qed.

Lemma schedule_arrays_consistent_witness :
  exists self,
    init (fun x _ => x) (28, 28, 1)%nat 1000 (1/10000, 2/100) = Ok self
    /\ forall t : Z, (0 <= t < 1000)%Z ->
         let k := Z.to_nat t in
         nth k (sqrt_alphas self) 0 ^ 2 = nth k (alphas self) 0
         /\ nth k (sqrt_betas self) 0 ^ 2 = 1 - nth k (alphas self) 0
         /\ 0 < nth k (alphas self) 0 < 1.
Proof.
  apply (@schedule_arrays_consistent (fun x _ => x) (28, 28, 1)%nat 1000
           (1/10000) (2/100)); [lra | lra | lra | lia].
Defined.

(** X3: for valid hyperparameters the two coefficients the reverse step
    divides by, [sqrt_alphas[t]] and [sqrt_one_minus_alpha_bars[t]], are
    positive (and below 1) at every timestep. *)
Theorem schedule_divisors_positive model res (T : Z) (beta_min beta_max : R) :
  0 < beta_min -> beta_min < beta_max -> beta_max < 1 -> (1 <= T)%Z ->
  exists self,
    init model res T (beta_min, beta_max) = Ok self
    /\ forall t : Z, (0 <= t < T)%Z ->
         let k := Z.to_nat t in
         0 < nth k (sqrt_alphas self) 0 < 1
         /\ 0 < nth k (sqrt_one_minus_alpha_bars self) 0 < 1.
Proof.
  intros H0 H1 H2 HT.
  assert (Hv : valid_hyperparameters beta_min beta_max T) by (repeat split; assumption).
  destruct (@init_arrays model res T beta_min beta_max) as (betas & E & Hlen & Hinit);
    [lia|].
  eexists. split; [exact Hinit|]. intros t Ht k.
  cbn [sqrt_alphas sqrt_one_minus_alpha_bars].
  pose proof (alpha_bars_bounds Hv E) as Hab.
  set (al := map (fun b => 1 - b) betas) in *.
  assert (Hk : (k < length betas)%nat) by (unfold k; lia).
  assert (Hka : (k < length al)%nat) by (unfold al; now rewrite length_map).
  assert (Hkc : (k < length (cumprod al))%nat)
    by (unfold cumprod; now rewrite cumprod_from_length).
  rewrite (nth_map_in sqrt al 0 0 Hka).
  rewrite (nth_map_in (fun ab => sqrt (1 - ab)) (cumprod al) 0 0 Hkc).
  pose proof (proj1 (Forall_forall _ _) Hab _ (nth_In (cumprod al) 0 Hkc)) as P.
  cbv beta in P.
  assert (Ha : 0 < nth k al 0 < 1).
  { unfold al. rewrite (nth_map_in (fun b => 1 - b) betas 0 0 Hk).
    pose proof (betas_in_bounds Hv E Hk). lra. }
  split; apply sqrt_unit_interval; lra.
Qed.

Lemma schedule_divisors_positive_witness :
  exists self,
    init (fun x _ => x) (28, 28, 1)%nat 1000 (1/10000, 2/100) = Ok self
    /\ forall t : Z, (0 <= t < 1000)%Z ->
         let k := Z.to_nat t in
         0 < nth k (sqrt_alphas self) 0 < 1
         /\ 0 < nth k (sqrt_one_minus_alpha_bars self) 0 < 1.
Proof.
  apply (@schedule_divisors_positive (fun x _ => x) (28, 28, 1)%nat 1000
           (1/10000) (2/100)); [lra | lra | lra | lia].
Defined.

(** X4: construction raises exactly when the number of steps is negative
    (the error of [torch.linspace]); nothing else about the hyperparameters
    can make it fail. *)
Theorem init_raises_iff_negative_steps model res (T : Z) (beta_min beta_max : R) :
  init model res T (beta_min, beta_max) = Raise RuntimeError_steps <-> (T < 0)%Z.
Proof.
  split.
  - intros E. destruct (Z.lt_ge_cases T 0) as [Hneg|Hpos]; [exact Hneg|].
    destruct (@init_arrays model res T beta_min beta_max Hpos) as (betas & _ & _ & Hok).
    rewrite Hok in E. discriminate E.
  - intros Hneg. now apply init_negative.
Qed.

Lemma linspace_last s e T betas :
  (2 <= T)%Z -> linspace s e T = Ok betas ->
  nth (Z.to_nat T - 1) betas 0 = e.
Proof.
  intros HT. unfold linspace.
  destruct (Z.ltb_spec T 0); [lia|].
  destruct (Z.eqb_spec T 1); [lia|]. intros [= <-].
  rewrite nth_tabulate by lia.
  assert (Hn : INR (Z.to_nat T - 1) = IZR T - 1).
  { rewrite INR_IZR_INZ. rewrite Nat2Z.inj_sub by lia.
    rewrite Z2Nat.id by lia. now rewrite minus_IZR. }
  rewrite Hn. assert (Hd : IZR T - 1 <> 0).
  { apply IZR_le in HT. lra. }
  field. exact Hd.
Qed.

(** X5: in a schedule with at least one step, whatever the bounds, the
    first noise level is [beta_min], [alpha_bar[0]] is [alpha[0]] (the two
    square-root arrays agree at 0) and [1 - alpha_bar[0]] is [beta[0]];
    with at least two steps the last noise level is [beta_max]. *)
Theorem schedule_end_points model res (T : Z) (beta_min beta_max : R) :
  (1 <= T)%Z ->
  exists self,
    init model res T (beta_min, beta_max) = Ok self
    /\ nth 0 (sqrt_betas self) 0 = sqrt beta_min
    /\ nth 0 (sqrt_alpha_bars self) 0 = nth 0 (sqrt_alphas self) 0
    /\ nth 0 (sqrt_one_minus_alpha_bars self) 0 = nth 0 (sqrt_betas self) 0
    /\ ((2 <= T)%Z ->
        nth (Z.to_nat T - 1) (sqrt_betas self) 0 = sqrt beta_max).
Proof.
  intros HT.
  destruct (@init_arrays model res T beta_min beta_max) as (betas & E & Hlen & Hinit);
    [lia|].
  destruct (@init_head model res T beta_min beta_max _ HT Hinit)
    as (Esb & _ & Esa & Eso & Eab).
  eexists. split; [exact Hinit|].
  rewrite Esb, Esa, Eso, Eab. repeat split.
  - f_equal. ring.
  - f_equal. ring.
  - intros HT2. cbn [sqrt_betas].
    rewrite (nth_map_in sqrt betas 0 0) by lia.
    now rewrite (@linspace_last beta_min beta_max T betas HT2 E).
Qed.

Lemma schedule_end_points_witness :
  exists self,
    init (fun x _ => x) (28, 28, 1)%nat 1000 (1/10000, 2/100) = Ok self
    /\ nth 0 (sqrt_betas self) 0 = sqrt (1/10000)
    /\ nth 0 (sqrt_alpha_bars self) 0 = nth 0 (sqrt_alphas self) 0
    /\ nth 0 (sqrt_one_minus_alpha_bars self) 0 = nth 0 (sqrt_betas self) 0
    /\ ((2 <= 1000)%Z ->
        nth (Z.to_nat 1000 - 1) (sqrt_betas self) 0 = sqrt (2/100)).
Proof.
  apply (@schedule_end_points (fun x _ => x) (28, 28, 1)%nat 1000
           (1/10000) (2/100)). lia.
Defined.

(** *** The cosine schedule *)

Lemma nth_combine_shifted {A} (l : list A) d i :
  (S i < length l)%nat ->
  nth i (combine (tl l) (removelast l)) (d, d) = (nth (S i) l d, nth i l d).
Proof.
  revert i. induction l as [|a l IH]; intros i Hi; [simpl in Hi; lia|].
  destruct l as [|b l]; [simpl in Hi; lia|].
  change (removelast (a :: b :: l)) with (a :: removelast (b :: l)).
  cbn [tl]. destruct i as [|i].
  - reflexivity.
  - cbn [combine nth]. specialize (IH i). cbn [tl] in IH.
    destruct l as [|c l]; [simpl in Hi; lia|].
    cbn [combine nth] in *. apply IH. simpl in *. lia.
Qed.

Lemma combine_shifted_length {A} (l : list A) :
  length (combine (tl l) (removelast l)) = (length l - 1)%nat.
Proof.
  rewrite length_combine, removelast_firstn_len, length_firstn.
  destruct l as [|a l]; [reflexivity|]. cbn [tl length]. lia.
Qed.

Lemma cosine_grid (n : Z) x (i : nat) :
  (1 <= n)%Z -> (Z.of_nat i <= n)%Z ->
  linspace 0 (IZR n) (n + 1) = Ok x ->
  length x = S (Z.to_nat n) /\ nth i x 0 = INR i.
Proof.
  intros Hn Hi. unfold linspace.
  destruct (Z.ltb_spec (n + 1) 0); [lia|].
  destruct (Z.eqb_spec (n + 1) 1); [lia|]. intros [= <-].
  split; [rewrite tabulate_length; lia|].
  rewrite nth_tabulate by lia.
  rewrite plus_IZR. assert (Hd : IZR n + 1 - 1 <> 0) by (apply IZR_le in Hn; lra).
  field. exact Hd.
Qed.

Lemma cosine_f_positive (n : Z) s t :
  (1 <= n)%Z -> 0 < s -> 0 <= t < IZR n -> 0 < cosine_f n s t.
Proof.
  intros Hn Hs Ht. unfold cosine_f. apply pow_lt.
  assert (Hd : 0 < IZR n) by (apply IZR_le in Hn; lra).
  set (r := (t / IZR n + s) / (1 + s)).
  assert (Hq : 0 <= t / IZR n < 1).
  { split.
    - apply Rmult_le_pos; [lra|]. left. now apply Rinv_0_lt_compat.
    - apply (Rmult_lt_reg_r (IZR n)); [exact Hd|].
      unfold Rdiv. rewrite Rmult_assoc, Rinv_l by lra. lra. }
  assert (Hr : 0 < r < 1).
  { unfold r. split.
    - apply Rdiv_lt_0_compat; lra.
    - apply (Rmult_lt_reg_r (1 + s)); [lra|].
      unfold Rdiv. rewrite Rmult_assoc, Rinv_l by lra. lra. }
  pose proof PI_RGT_0 as HPI.
  apply cos_gt_0; nra.
Qed.

Lemma cosine_f_end (n : Z) s :
  (1 <= n)%Z -> 0 < s -> cosine_f n s (IZR n) = 0.
Proof.
  intros Hn Hs. unfold cosine_f.
  assert (Hd : 0 < IZR n) by (apply IZR_le in Hn; lra).
  replace (IZR n / IZR n) with 1 by (field; lra).
  replace ((1 + s) / (1 + s)) with 1 by (field; lra).
  replace (1 * 0.5 * PI) with (PI / 2) by lra.
  rewrite cos_PI2. ring.
Qed.

(** The entries of the cosine schedule before any bound is read off. *)
Lemma cosine_schedule_run (n : Z) (s : R) :
  (1 <= n)%Z -> 0 < s ->
  exists betas,
    cosine_schedule n s = Ok betas
    /\ length betas = Z.to_nat n
    /\ forall i : nat, (Z.of_nat i < n)%Z ->
         nth i betas 0
         = clamp 0.0001 0.02
             (1 - cosine_f n s (INR (S i)) / cosine_f n s (INR i)).
Proof.
  intros Hn Hs. unfold cosine_schedule.
  destruct (@linspace_total 0 (IZR n) (n + 1)) as [x E]; [lia|].
  rewrite E. cbn [rbind]. eexists. split; [reflexivity|].
  assert (Hx : length x = S (Z.to_nat n))
    by (apply (@cosine_grid n x 0 Hn); [lia|exact E]).
  set (f0 := cosine_f n s 0).
  set (ac := map (fun t => cosine_f n s t / f0) x).
  assert (Hac : length ac = S (Z.to_nat n)) by (unfold ac; now rewrite length_map).
  split.
  - rewrite !length_map, combine_shifted_length, Hac. lia.
  - intros i Hi.
    assert (Hf0 : 0 < f0).
    { apply cosine_f_positive; try assumption. apply IZR_le in Hn. lra. }
    assert (Hfi : 0 < cosine_f n s (INR i)).
    { apply cosine_f_positive; try assumption. split; [apply pos_INR|].
      rewrite INR_IZR_INZ. now apply IZR_lt. }
    assert (Hi1 : (i < length (combine (tl ac) (removelast ac)))%nat)
      by (rewrite combine_shifted_length, Hac; lia).
    rewrite (ScheduleFacts.nth_map_in (clamp 0.0001 0.02) _ 0 0)
      by now rewrite length_map.
    f_equal.
    rewrite (ScheduleFacts.nth_map_in (fun hl => 1 - fst hl / snd hl) _ (0, 0) 0 Hi1).
    rewrite nth_combine_shifted by (rewrite Hac; lia). cbn [fst snd].
    unfold ac.
    rewrite !(ScheduleFacts.nth_map_in (fun t => cosine_f n s t / f0) x 0 0)
      by (rewrite Hx; lia).
    destruct (@cosine_grid n x i Hn) as [_ ->]; [lia|exact E|].
    destruct (@cosine_grid n x (S i) Hn) as [_ ->]; [lia|exact E|].
    field. split; apply Rgt_not_eq; assumption.
Qed.

(** X6: for [num_timesteps >= 1] and [s > 0] the cosine schedule returns
    [num_timesteps] betas; the common factor [f(0)] cancels, so beta [i] is
    [1 - f(i+1) / f(i)] clipped to [[0.0001, 0.02]], the divisor [f(i)] is
    positive, and every beta lies in [[0.0001, 0.02]]. *)
Theorem cosine_schedule_entries (n : Z) (s : R) :
  (1 <= n)%Z -> 0 < s ->
  exists betas,
    cosine_schedule n s = Ok betas
    /\ length betas = Z.to_nat n
    /\ forall i : nat, (Z.of_nat i < n)%Z ->
         0 < cosine_f n s (INR i)
         /\ nth i betas 0
            = clamp 0.0001 0.02
                (1 - cosine_f n s (INR (S i)) / cosine_f n s (INR i))
         /\ 0.0001 <= nth i betas 0 <= 0.02.
Proof.
  intros Hn Hs.
  destruct (cosine_schedule_run Hn Hs) as (betas & E & Hlen & Hnth).
  exists betas. split; [exact E|]. split; [exact Hlen|].
  intros i Hi. split; [|split; [now apply Hnth|]].
  - apply cosine_f_positive; try assumption. split; [apply pos_INR|].
    rewrite INR_IZR_INZ. now apply IZR_lt.
  - rewrite (Hnth i Hi). unfold clamp. split.
    + apply Rmin_glb; [|lra]. apply (Rle_trans _ 0.0001); [lra|apply Rmax_r].
    + apply Rmin_r.
Qed.

Lemma cosine_schedule_entries_witness :
  exists betas,
    cosine_schedule 1000 0.008 = Ok betas
    /\ length betas = Z.to_nat 1000
    /\ forall i : nat, (Z.of_nat i < 1000)%Z ->
         0 < cosine_f 1000 0.008 (INR i)
         /\ nth i betas 0
            = clamp 0.0001 0.02
                (1 - cosine_f 1000 0.008 (INR (S i)) / cosine_f 1000 0.008 (INR i))
         /\ 0.0001 <= nth i betas 0 <= 0.02.
Proof.
  apply (@cosine_schedule_entries 1000 0.008); [lia|lra].
Defined.

(** X7: the last beta of the cosine schedule is the upper clip value 0.02:
    [f] vanishes at the last grid point, so the unclipped value is 1. *)
Theorem cosine_schedule_last_is_clipped (n : Z) (s : R) :
  (1 <= n)%Z -> 0 < s ->
  exists betas,
    cosine_schedule n s = Ok betas
    /\ nth (Z.to_nat n - 1) betas 0 = 0.02.
Proof.
  intros Hn Hs.
  destruct (cosine_schedule_run Hn Hs) as (betas & E & Hlen & Hnth).
  exists betas. split; [exact E|].
  rewrite Hnth by lia.
  replace (INR (S (Z.to_nat n - 1))) with (IZR n).
  - rewrite cosine_f_end by assumption.
    unfold clamp, Rdiv. rewrite Rmult_0_l, Rminus_0_r.
    rewrite Rmax_left by lra. apply Rmin_right. lra.
  - rewrite INR_IZR_INZ. f_equal. lia.
Qed.

Lemma cosine_schedule_last_is_clipped_witness :
  exists betas,
    cosine_schedule 1000 0.008 = Ok betas
    /\ nth (Z.to_nat 1000 - 1) betas 0 = 0.02.
Proof.
  apply (@cosine_schedule_last_is_clipped 1000 0.008); [lia|lra].
Defined.

End ScheduleExtra.

(** ** The extractor on arbitrary timestep batches, and the rescalings *)

Module ExtractExtra.

Import Tensor Diffusion ExtractFacts.
Open Scope R_scope.

Lemma in_range_dec a k : {in_range a k} + {~ in_range a k}.
Proof.
  unfold in_range.
  destruct (Z_le_dec 0 k); destruct (Z_lt_dec k (Z.of_nat (length a)));
    (left; lia) || (right; lia).
Qed.

Lemma gather_list_out_of_range a ts :
  Exists (fun k => ~ in_range a k) ts ->
  gather_list a ts = Raise RuntimeError_index.
Proof.
  induction ts as [|k ts IH]; intros H; [inversion H|].
  cbn [gather_list].
  destruct ((0 <=? k)%Z && (k <? Z.of_nat (length a))%Z)%bool eqn:E;
    [|reflexivity].
  apply andb_prop in E. destruct E as [E0 E1].
  apply Z.leb_le in E0. apply Z.ltb_lt in E1.
  inversion H as [? ? Hk|? ? Ht]; subst.
  - exfalso. apply Hk. split; assumption.
  - now rewrite (IH Ht).
Qed.

(** X8: [extract] raises, with the index error of [gather], exactly when
    some timestep of the batch is not an index of the coefficient array;
    the target shape plays no part in it. *)
Theorem extract_raises_iff (a : list R) (ts : list Z) (x_shape : list nat) :
  extract a ts x_shape = Raise RuntimeError_index
  <-> Exists (fun k => ~ in_range a k) ts.
Proof.
  split.
  - intros E.
    destruct (Forall_Exists_dec (in_range a) (in_range_dec a) ts) as [HF|HE];
      [|exact HE].
    rewrite (extract_in_range x_shape HF) in E. discriminate E.
  - intros HE. unfold extract, gather.
    now rewrite (gather_list_out_of_range HE).
Qed.

(** X9: on a batch of valid timesteps [extract] returns one coefficient
    per sample, in the order of the batch: entry [i] is [a[ts[i]]], and
    the shape is [len(ts), 1, ..., 1]. *)
Theorem extract_per_sample (a : list R) (ts : list Z) (x_shape : list nat) :
  Forall (in_range a) ts ->
  exists out,
    extract a ts x_shape = Ok out
    /\ shape out = length ts :: repeat 1%nat (length x_shape - 1)
    /\ length (data out) = length ts
    /\ forall i, (i < length ts)%nat ->
         nth i (data out) 0 = nth (Z.to_nat (nth i ts 0%Z)) a 0.
Proof.
  intros H. eexists. split; [apply (extract_in_range x_shape H)|].
  cbn [shape data]. split; [reflexivity|]. split; [apply length_map|].
  intros i Hi.
  apply (ScheduleFacts.nth_map_in (fun k => nth (Z.to_nat k) a 0) ts 0%Z 0 Hi).
Qed.

Lemma extract_per_sample_witness :
  exists out,
    extract [0.5; 0.25; 0.125] [2; 0; 1; 2]%Z [4; 1; 28; 28]%nat = Ok out
    /\ shape out = [4; 1; 1; 1]%nat
    /\ length (data out) = 4%nat
    /\ forall i, (i < 4)%nat ->
         nth i (data out) 0
         = nth (Z.to_nat (nth i [2; 0; 1; 2]%Z 0%Z)) [0.5; 0.25; 0.125] 0.
Proof.
  apply (@extract_per_sample [0.5; 0.25; 0.125] [2; 0; 1; 2]%Z [4; 1; 28; 28]%nat).
  repeat constructor; simpl; lia.
Defined.

(** X10: the rescalings keep the shape; [scale_to_minus_one_to_one] takes
    entries of [[0, 1]] into [[-1, 1]] and [reverse_scale_to_zero_to_one]
    takes entries of [[-1, 1]] into [[0, 1]]. *)
Theorem rescalings_ranges (x : tensor) :
  shape (scale_to_minus_one_to_one x) = shape x
  /\ shape (reverse_scale_to_zero_to_one x) = shape x
  /\ (Forall (fun v => 0 <= v <= 1) (data x) ->
      Forall (fun v => -1 <= v <= 1) (data (scale_to_minus_one_to_one x)))
  /\ (Forall (fun v => -1 <= v <= 1) (data x) ->
      Forall (fun v => 0 <= v <= 1) (data (reverse_scale_to_zero_to_one x))).
Proof.
  split; [reflexivity|]. split; [reflexivity|].
  unfold scale_to_minus_one_to_one, reverse_scale_to_zero_to_one, tmap.
  cbn [data]. split; intros H; apply Forall_map;
    (eapply Forall_impl; [|exact H]); cbv beta; intros v Hv; lra.
Qed.

Lemma rescalings_ranges_witness :
  let x := mk [1; 1; 1; 3]%nat [0; 1/2; 1] in
  Forall (fun v => -1 <= v <= 1) (data (scale_to_minus_one_to_one x))
  /\ Forall (fun v => 0 <= v <= 1)
       (data (reverse_scale_to_zero_to_one (scale_to_minus_one_to_one x))).
Proof.
  intros x.
  assert (H1 : Forall (fun v => -1 <= v <= 1) (data (scale_to_minus_one_to_one x))).
  { apply (proj1 (proj2 (proj2 (rescalings_ranges x)))).
    repeat constructor; simpl; lra. }
  split; [exact H1|].
  apply (proj2 (proj2 (proj2 (rescalings_ranges (scale_to_minus_one_to_one x))))).
  exact H1.
Defined.

End ExtractExtra.

(** ** Errors and ranges of the forward and reverse processes *)

Module ProcessExtra.

Import Tensor Diffusion TensorFacts ExtractFacts ScheduleFacts ProcessFacts.
Open Scope R_scope.

Section WithRandomSource.
Context {RS : RandomSource}.

Lemma clamp_bounds lo hi v : lo <= hi -> lo <= clamp lo hi v <= hi.
Proof.
  intros H. unfold clamp. split.
  - apply Rmin_glb; [apply Rmax_r|exact H].
  - apply Rmin_r.
Qed.

Lemma not_in_schedule_range self k :
  schedule_wf self -> ~ (0 <= k < n_times self)%Z ->
  ~ in_range (sqrt_betas self) k
  /\ ~ in_range (alphas self) k
  /\ ~ in_range (sqrt_alphas self) k
  /\ ~ in_range (sqrt_one_minus_alpha_bars self) k
  /\ ~ in_range (sqrt_alpha_bars self) k.
Proof.
  intros (H1 & H2 & H3 & H4 & H5) Hk. unfold in_range.
  rewrite H1, H2, H3, H4, H5. repeat split; lia.
Qed.

Lemma extract_raise a ts x_shape :
  Exists (fun k => ~ in_range a k) ts ->
  extract a ts x_shape = Raise RuntimeError_index.
Proof.
  intros HE. unfold extract, gather.
  now rewrite (ExtractExtra.gather_list_out_of_range HE).
Qed.

(** X11: [make_noisy] raises the index error of [gather] as soon as one
    timestep of the batch lies outside [[0, n_times)]. *)
Theorem make_noisy_rejects_bad_timestep self x ts g :
  schedule_wf self ->
  Exists (fun k => ~ (0 <= k < n_times self)%Z) ts ->
  make_noisy self x ts g = Raise RuntimeError_index.
Proof.
  intros Hwf HE. unfold make_noisy.
  unfold mbind at 1. rewrite randn_like_run.
  rewrite extract_raise; [reflexivity|].
  eapply Exists_impl; [|exact HE]. cbv beta. intros k Hk.
  now destruct (not_in_schedule_range Hwf Hk) as (_ & _ & _ & _ & ?).
Qed.


(** X13: a state that is not four-dimensional is rejected by the unpacking
    of its shape, before anything else happens. *)
Theorem denoise_at_t_rejects_rank self x timestep t g :
  length (shape x) <> 4%nat ->
  denoise_at_t self x timestep t g = Raise ValueError_unpack.
Proof.
  intros Hr. unfold denoise_at_t.
  destruct (shape x) as [|a [|b [|c [|d [|e l]]]]]; try reflexivity.
  exfalso. apply Hr. reflexivity.
Qed.

(** X14: on a non-empty batch, a timestep outside [[0, n_times)] makes the
    reverse step raise the index error of [gather]. *)
Theorem denoise_at_t_rejects_bad_timestep self x t g B C H W :
  schedule_wf self ->
  shape x = [B; C; H; W]%nat ->
  (1 <= B)%nat ->
  ~ (0 <= t < n_times self)%Z ->
  denoise_at_t self x (repeat t B) t g = Raise RuntimeError_index.
Proof.
  intros Hwf Hx HB Ht. unfold denoise_at_t. rewrite Hx.
  destruct (not_in_schedule_range Hwf Ht) as (_ & Ha & _).
  assert (HE : Exists (fun k => ~ in_range (alphas self) k) (repeat t B)).
  { destruct B as [|B]; [lia|]. cbn [repeat]. now apply Exists_cons_hd. }
  unfold mbind at 1.
  destruct (1 <? t)%Z.
  - rewrite randn_like_run. now rewrite (extract_raise _ HE).
  - unfold mret at 1. now rewrite (extract_raise _ HE).
Qed.

Lemma randn_shape_run sh g :
  randn_shape sh g = Ok (mk sh (fst (randn g (numel sh))), snd (randn g (numel sh))).
Proof. unfold randn_shape. now destruct (randn g (numel sh)). Qed.

(** The loop of [sample] from [k] steps to go: it succeeds, keeps the
    shape, leaves a clamped state, and draws noise [k - 2] times. *)
Lemma sample_loop_run self N C H W :
  schedule_wf self ->
  (forall x ts, shape x = [N; C; H; W]%nat -> shape (model self x ts) = shape x) ->
  forall k x g,
    (k <= Z.to_nat (n_times self))%nat ->
    shape x = [N; C; H; W]%nat ->
    exists out,
      sample_loop self N k x g
      = Ok (out, Nat.iter (k - 2) (fun g => snd (randn g (numel [N; C; H; W]))) g)
      /\ shape out = [N; C; H; W]%nat
      /\ ((1 <= k)%nat -> Forall (fun v => -1 <= v <= 1) (data out)).
Proof.
  intros Hwf Hmodel. induction k as [|k IH]; intros x g Hk Hx.
  - exists x. split; [reflexivity|]. split; [exact Hx|]. intros F. lia.
  - cbn [sample_loop].
    assert (Ht : (0 <= Z.of_nat k < n_times self)%Z) by lia.
    destruct (schedule_in_range Hwf Ht) as (Hsb & Ha & Hsa & Hso & _).
    unfold mbind.
    rewrite (denoise_at_t_run self x g Hx (Hmodel x _ Hx) Ha Hsa Hso Hsb).
    match goal with
    | |- context [sample_loop self N k ?x1 ?g1] =>
        destruct (IH x1 g1) as (out & E & Hsh & Hr);
        [lia|cbn [shape]; exact Hx|]; set (x' := x1) in *
    end.
    exists out. split; [|split; [exact Hsh|]].
    + rewrite E. do 2 f_equal. rewrite Hx.
      destruct (Z.ltb_spec 1 (Z.of_nat k)) as [H1|H1].
      * replace (S k - 2)%nat with (S (k - 2)) by lia.
        now rewrite Nat.iter_succ_r.
      * replace (k - 2)%nat with 0%nat by lia.
        replace (S k - 2)%nat with 0%nat by lia. reflexivity.
    + intros _. destruct k as [|k].
      * cbn [sample_loop] in E. unfold mret in E. injection E as <-.
        unfold x'. cbn [data]. unfold tabulate. apply Forall_map.
        apply Forall_forall. intros i _. apply clamp_bounds. lra.
      * apply Hr. lia.
Qed.


(** X16: [sample] reads the random source once for the initial noise and
    once per step with [t > 1], that is [1 + (n_times - 2)] times in all
    (once when [n_times <= 2]); every draw has the size of the batch. *)
Theorem sample_number_of_draws self N g :
  schedule_wf self ->
  (forall x ts, shape x = [N; img_C self; img_H self; img_W self]%nat ->
                shape (model self x ts) = shape x) ->
  exists out,
    sample self N g
    = Ok (out,
          Nat.iter (1 + (Z.to_nat (n_times self) - 2))
            (fun g => snd (randn g (numel [N; img_C self; img_H self; img_W self])))
            g).
Proof.
  intros Hwf Hmodel. unfold sample. unfold mbind at 1.
  rewrite randn_shape_run.
  destruct (@sample_loop_run self N (img_C self) (img_H self) (img_W self)
              Hwf Hmodel (Z.to_nat (n_times self))
              (mk [N; img_C self; img_H self; img_W self]
                 (fst (randn g (numel [N; img_C self; img_H self; img_W self]))))
              (snd (randn g (numel [N; img_C self; img_H self; img_W self]))))
    as (out & E & _ & _); [lia|reflexivity|].
  unfold mbind. rewrite E. unfold mret. eexists. do 2 f_equal.
  change (1 + (Z.to_nat (n_times self) - 2))%nat
    with (S (Z.to_nat (n_times self) - 2)).
  now rewrite Nat.iter_succ_r.
Qed.

End WithRandomSource.

Section Training.
Context {RS : RandomSource} {IS : IntSource}.

(** X17: on a four-dimensional batch and a schedule of at least one step
    the training pass succeeds: the timesteps it draws are indices of the
    schedule, so the corruption cannot raise; it returns the corrupted
    rescaled batch, the noise and the network's prediction on the corrupted
    batch at the drawn timesteps. *)
Theorem forward_succeeds self x g B C H W :
  schedule_wf self ->
  (1 <= n_times self)%Z ->
  shape x = [B; C; H; W]%nat ->
  wf x ->
  exists ts noisy epsilon g',
    forward self x g = inr ((noisy, epsilon, model self noisy ts), g')
    /\ length ts = B
    /\ Forall (fun k => (0 <= k < n_times self)%Z) ts
    /\ shape noisy = shape x
    /\ shape epsilon = shape x
    /\ forall n j, (n < B)%nat -> (j < numel [C; H; W])%nat ->
         let i := (n * numel [C; H; W] + j)%nat in
         let tn := Z.to_nat (nth n ts 0%Z) in
         nth i (data noisy) 0
         = (nth i (data x) 0 * 2 - 1) * nth tn (sqrt_alpha_bars self) 0
           + nth i (data epsilon) 0 * nth tn (sqrt_one_minus_alpha_bars self) 0.
Proof.
  intros Hwf HT Hx Hwfx.
  destruct (@randint_range RS IS g 0%Z (n_times self) B) as (ts & g1 & Er & Hlen & Hr);
    [lia|].
  destruct (schedule_all_in_range Hwf Hr) as [Hb Ha].
  set (xs := scale_to_minus_one_to_one x).
  assert (Hxs : shape xs = [B; C; H; W]%nat) by exact Hx.
  pose proof (make_noisy_run self xs g1 Hxs Hlen Ha Hb) as Hrun. cbv zeta in Hrun.
  exists ts. do 3 eexists. split.
  { unfold forward. fold xs. rewrite Hxs, Er, Hrun. reflexivity. }
  cbn [shape data]. split; [exact Hlen|]. split; [exact Hr|].
  split; [now rewrite Hx|]. split; [now rewrite Hxs, Hx|].
  intros n j Hn Hj. set (i := (n * numel [C; H; W] + j)%nat).
  assert (Hi : (i < B * numel [C; H; W])%nat) by (unfold i; nia).
  rewrite (nth_tabulate _ _ Hi).
  replace (i / numel [C; H; W])%nat with n.
  - f_equal. f_equal. unfold xs, scale_to_minus_one_to_one, tmap. cbn [data].
    apply (nth_map_in (fun v => v * 2 - 1) (data x) 0 0).
    rewrite Hwfx, Hx. exact Hi.
  - unfold i. rewrite Nat.div_add_l by lia.
    rewrite (Nat.div_small j) by exact Hj. lia.
Qed.

(** X18: the two ways the training pass fails before any tensor is
    computed: a batch that is not four-dimensional is rejected by the
    unpacking of its shape, and with no timestep to draw from
    ([n_times <= 0]) [torch.randint] raises on the empty range. *)
Theorem forward_raises self x g :
  (length (shape x) <> 4%nat ->
   forward self x g = inl (Tensor_exn ValueError_unpack))
  /\ (length (shape x) = 4%nat -> (n_times self <= 0)%Z ->
      forward self x g = inl RuntimeError_random_range).
Proof.
  unfold forward.
  change (shape (scale_to_minus_one_to_one x)) with (shape x).
  split.
  - intros Hr. destruct (shape x) as [|a [|b [|c [|d [|e l]]]]]; try reflexivity.
    exfalso. apply Hr. reflexivity.
  - intros Hr HT.
    destruct (shape x) as [|a [|b [|c [|d [|e l]]]]]; try discriminate Hr.
    now rewrite (@randint_empty RS IS g 0%Z (n_times self) a HT).
Qed.

End Training.

Lemma make_noisy_rejects_bad_timestep_witness :
  exists self,
    init (fun x _ => x) (2, 2, 1)%nat 3 (1/2, 3/4) = Ok self
    /\ @make_noisy counter_source self
         (mk [2; 1; 2; 2]%nat [1; 0; -1; 0; 1/2; 1; 0; -1/2]) [0; 3]%Z 1%nat
       = Raise RuntimeError_index.
Proof.
  eexists. split; [reflexivity|].
  apply (@make_noisy_rejects_bad_timestep counter_source).
  - repeat split; reflexivity.
  - apply Exists_cons_tl. apply Exists_cons_hd. simpl. lia.
Defined.


Lemma denoise_at_t_rejects_rank_witness :
  exists self,
    init (fun x _ => x) (1, 2, 1)%nat 3 (1/2, 3/4) = Ok self
    /\ @denoise_at_t counter_source self (mk [1; 2]%nat [1/2; -1/4]) [0%Z] 0 1%nat
       = Raise ValueError_unpack.
Proof.
  eexists. split; [reflexivity|].
  apply (@denoise_at_t_rejects_rank counter_source). simpl. lia.
Defined.

Lemma denoise_at_t_rejects_bad_timestep_witness :
  exists self,
    init (fun x _ => x) (1, 2, 1)%nat 3 (1/2, 3/4) = Ok self
    /\ @denoise_at_t counter_source self (mk [1; 1; 1; 2]%nat [1/2; -1/4])
         (repeat 3%Z 1) 3 1%nat
       = Raise RuntimeError_index.
Proof.
  eexists. split; [reflexivity|].
  apply (@denoise_at_t_rejects_bad_timestep counter_source _
           (mk [1; 1; 1; 2]%nat [1/2; -1/4]) 3%Z 1%nat 1%nat 1%nat 1%nat 2%nat).
  - repeat split; reflexivity.
  - reflexivity.
  - lia.
  - simpl. lia.
Defined.


Lemma sample_number_of_draws_witness :
  exists self,
    init (fun x _ => x) (2, 2, 1)%nat 3 (1/2, 3/4) = Ok self
    /\ exists out,
         @sample counter_source self 2 1%nat
         = Ok (out,
               Nat.iter (1 + (Z.to_nat (n_times self) - 2))
                 (fun g => snd (@randn counter_source g
                                  (numel [2; img_C self; img_H self; img_W self]%nat)))
                 1%nat).
Proof.
  eexists. split; [reflexivity|].
  apply (@sample_number_of_draws counter_source).
  - repeat split; reflexivity.
  - intros x ts Hx. reflexivity.
Defined.

Lemma forward_succeeds_witness :
  exists self,
    init (fun x _ => x) (2, 2, 1)%nat 3 (1/2, 3/4) = Ok self
    /\ let x := mk [2; 1; 2; 2]%nat [1; 0; 1/4; 0; 1/2; 1; 0; 3/4] in
       exists ts noisy epsilon g',
         @forward counter_source counter_ints self x 1%nat
         = inr ((noisy, epsilon, model self noisy ts), g')
         /\ length ts = 2%nat
         /\ Forall (fun k => (0 <= k < n_times self)%Z) ts
         /\ shape noisy = shape x
         /\ shape epsilon = shape x
         /\ forall n j, (n < 2)%nat -> (j < numel [1; 2; 2]%nat)%nat ->
              let i := (n * numel [1; 2; 2]%nat + j)%nat in
              let tn := Z.to_nat (nth n ts 0%Z) in
              nth i (data noisy) 0
              = (nth i (data x) 0 * 2 - 1) * nth tn (sqrt_alpha_bars self) 0
                + nth i (data epsilon) 0
                  * nth tn (sqrt_one_minus_alpha_bars self) 0.
Proof.
  eexists. split; [reflexivity|].
  apply (@forward_succeeds counter_source counter_ints _
           (mk [2; 1; 2; 2]%nat [1; 0; 1/4; 0; 1/2; 1; 0; 3/4]) 1%nat
           2%nat 1%nat 2%nat 2%nat).
  - repeat split; reflexivity.
  - simpl. lia.
  - reflexivity.
  - reflexivity.
Defined.

Lemma forward_raises_witness :
  (exists self,
     init (fun x _ => x) (2, 2, 1)%nat 3 (1/2, 3/4) = Ok self
     /\ @forward counter_source counter_ints self (mk [2; 2]%nat [0; 1; 1; 0]) 1%nat
        = inl (Tensor_exn ValueError_unpack))
  /\ (exists self,
        init (fun x _ => x) (2, 2, 1)%nat 0 (1/2, 3/4) = Ok self
        /\ @forward counter_source counter_ints self
             (mk [1; 1; 2; 2]%nat [0; 1; 1; 0]) 1%nat
           = inl RuntimeError_random_range).
Proof.
  split; eexists; (split; [reflexivity|]).
  - apply (proj1 (@forward_raises counter_source counter_ints _
                    (mk [2; 2]%nat [0; 1; 1; 0]) 1%nat)).
    simpl. lia.
  - apply (proj2 (@forward_raises counter_source counter_ints _
                    (mk [1; 1; 2; 2]%nat [0; 1; 1; 0]) 1%nat)).
    + reflexivity.
    + simpl. lia.
Defined.

End ProcessExtra.

(** ** The kernel and the score of two images *)

Module SSIMExtra.

Import Tensor TensorFacts SSIM WindowFacts SSIMFacts.
Open Scope R_scope.

(** The score of two single-channel batches of one shape, precision and
    device, entry by entry of the SSIM map. *)
Lemma forward_run ws sg N H W d1 d2 dt dv self :
  init ws sg = Ok self ->
  (1 <= ws)%nat -> (1 <= H)%nat -> (1 <= W)%nat ->
  let xsh := [N; 1%nat; H; W] in
  let wsh := [1%nat; 1%nat; ws; ws] in
  let p := (ws / 2)%nat in
  let osh := [N; 1%nat; (H + 2 * p - ws + 1)%nat; (W + 2 * p - ws + 1)%nat] in
  let w := data (payload (window self)) in
  let cv d k :=
    conv_at xsh d wsh w p 1 (nth 0 (unravel osh k) 0%nat) 0
      (nth 2 (unravel osh k) 0%nat) (nth 3 (unravel osh k) 0%nat) in
  let prod a b := tabulate (numel xsh) (fun i => nth i a 0 * nth i b 0) in
  snd (forward self (Place (mk [N; 1%nat; H; W] d1) dt dv) (Place (mk [N; 1%nat; H; W] d2) dt dv))
  = Ok (mean
          (Place
             (mk osh
                (tabulate (numel osh)
                   (fun k =>
                      clamp 0 1
                        ((2 * cv d1 k * cv d2 k + 0.01 ^ 2)
                         * (2 * (cv (prod d1 d2) k - cv d1 k * cv d2 k) + 0.03 ^ 2)
                         / ((cv d1 k ^ 2 + cv d2 k ^ 2 + 0.01 ^ 2)
                            * (cv (prod d1 d1) k - cv d1 k ^ 2
                               + (cv (prod d2 d2) k - cv d2 k ^ 2) + 0.03 ^ 2))))))
             dt dv)).
Proof.
  intros Hinit Hws HH HW. cbv zeta.
  rewrite init_run in Hinit. injection Hinit as <-.
  unfold forward.
  cbn [snd window window_size channel dtype_of device_of payload data].
  unfold to_device, to_dtype. cbn [payload dtype_of device_of].
  set (w := tabulate (ws * (ws * 1))
              (fun i => nth (i / ws) (gaussian_window ws sg) 0
                        * nth (i mod ws) (gaussian_window ws sg) 0)).
  rewrite (conv2d_run N d1 dt dv w Hws HH HW). cbn [rbind].
  rewrite (conv2d_run N d2 dt dv w Hws HH HW). cbn [rbind].
  rewrite (@pbop_same Rmult (mk [N; 1%nat; H; W] d1) (mk [N; 1%nat; H; W] d1) dt dv eq_refl).
  cbn [rbind shape data].
  rewrite (conv2d_run N _ dt dv w Hws HH HW). cbn [rbind].
  rewrite !pmap_place. rewrite pbop_tabulate. cbn [rbind].
  rewrite (@pbop_same Rmult (mk [N; 1%nat; H; W] d2) (mk [N; 1%nat; H; W] d2) dt dv eq_refl).
  cbn [rbind shape data].
  rewrite (conv2d_run N _ dt dv w Hws HH HW). cbn [rbind].
  rewrite pbop_tabulate. cbn [rbind].
  rewrite (@pbop_same Rmult (mk [N; 1%nat; H; W] d1) (mk [N; 1%nat; H; W] d2) dt dv eq_refl).
  cbn [rbind shape data].
  rewrite (conv2d_run N _ dt dv w Hws HH HW). cbn [rbind].
  repeat (progress (rewrite ?pmap_place, ?pbop_tabulate; cbn [rbind])).
  reflexivity.
Qed.

Lemma unit_mean l :
  l <> [] -> Forall (fun v => 0 <= v <= 1) l ->
  0 <= Rsum l / INR (length l) <= 1.
Proof.
  intros Hne H.
  assert (Hs : 0 <= Rsum l <= INR (length l)).
  { clear Hne. induction H as [|a l Ha _ IH].
    - simpl. lra.
    - change (length (a :: l)) with (S (length l)). rewrite S_INR.
      cbn [Rsum fold_right]. fold (Rsum l). lra. }
  assert (Hl : 0 < INR (length l)).
  { apply lt_0_INR. destruct l; [congruence|simpl; lia]. }
  split.
  - apply Rmult_le_pos; [lra|]. left. now apply Rinv_0_lt_compat.
  - apply (Rmult_le_reg_r (INR (length l))); [exact Hl|].
    unfold Rdiv. rewrite Rmult_assoc, Rinv_l by lra. lra.
Qed.

Lemma map_seq_offset {A} (f : nat -> A) a m :
  map f (seq a m) = map (fun j => f (a + j)%nat) (seq 0 m).
Proof.
  revert a. induction m as [|m IH]; intros a; [reflexivity|].
  cbn [seq map]. rewrite Nat.add_0_r. f_equal.
  rewrite (IH (S a)), <- seq_shift, map_map.
  apply map_ext. intros j. f_equal. lia.
Qed.

Lemma Rsum_tabulate_grid (f : nat -> nat -> R) n m :
  Rsum (tabulate (n * m) (fun i => f (i / m)%nat (i mod m)%nat))
  = Rsum (map (fun a => Rsum (map (f a) (seq 0 m))) (seq 0 n)).
Proof.
  destruct m as [|m].
  { rewrite Nat.mul_0_r. cbn [tabulate seq map Rsum fold_right].
    induction (seq 0 n) as [|a l IH]; [reflexivity|].
    cbn [map Rsum fold_right]. fold (Rsum (map (fun _ : nat => 0) l)).
    rewrite <- IH. ring. }
  induction n as [|n IH]; [reflexivity|].
  unfold tabulate in *.
  replace (S n * S m)%nat with (n * S m + S m)%nat by lia.
  rewrite seq_app, map_app, Rsum_app, IH. cbn [Nat.add].
  rewrite (seq_S n 0), (map_app _ (seq 0 n)), Rsum_app.
  cbn [map Rsum fold_right Nat.add]. rewrite Rplus_0_r. f_equal.
  rewrite map_seq_offset. f_equal. apply map_ext_in. intros j Hj.
  apply in_seq in Hj.
  rewrite Nat.div_add_l, (Nat.div_small j), Nat.add_0_r by lia.
  rewrite Nat.add_comm, Nat.Div0.mod_add, (Nat.mod_small j) by lia.
  reflexivity.
Qed.

(** X19: the one-dimensional window of a positive size is normalised: it
    has [size] positive entries that sum to 1, and it is symmetric about
    its centre. *)
Theorem gaussian_window_normalised (size : nat) (sigma : R) :
  (1 <= size)%nat -> sigma <> 0 ->
  length (gaussian_window size sigma) = size
  /\ Rsum (gaussian_window size sigma) = 1
  /\ forall i, (i < size)%nat ->
       0 < nth i (gaussian_window size sigma) 0
       /\ nth (size - 1 - i) (gaussian_window size sigma) 0
          = nth i (gaussian_window size sigma) 0.
Proof.
  intros Hs Hsig. split; [apply gaussian_window_length|].
  split; [now apply gaussian_window_sum|].
  intros i Hi.
  pose proof (bell_sum_positive sigma Hs) as HS.
  assert (Hnth : forall j, (j < size)%nat ->
            nth j (gaussian_window size sigma) 0
            = exp (- ((INR j - (INR size - 1) / 2) ^ 2) / (2 * sigma ^ 2))
              / Rsum (bell size sigma)).
  { intros j Hj. rewrite gaussian_window_bell.
    rewrite (ScheduleFacts.nth_map_in (fun v => v / Rsum (bell size sigma)) _ 0 0)
      by (rewrite bell_length; exact Hj).
    f_equal. unfold bell.
    rewrite (ScheduleFacts.nth_map_in _ _ 0 0) by (rewrite tabulate_length; exact Hj).
    now rewrite nth_tabulate. }
  rewrite (Hnth i Hi), (Hnth (size - 1 - i)%nat) by lia. split.
  - apply Rdiv_lt_0_compat; [apply exp_pos|exact HS].
  - assert (Hc : INR (size - 1 - i) - (INR size - 1) / 2
                 = - (INR i - (INR size - 1) / 2)).
    { rewrite !minus_INR by lia. change (INR 1) with 1. lra. }
    rewrite Hc. f_equal. f_equal. unfold Rdiv. f_equal. ring.
Qed.

Lemma gaussian_window_normalised_witness :
  length (gaussian_window 11 1.5) = 11%nat
  /\ Rsum (gaussian_window 11 1.5) = 1
  /\ forall i, (i < 11)%nat ->
       0 < nth i (gaussian_window 11 1.5) 0
       /\ nth (11 - 1 - i) (gaussian_window 11 1.5) 0
          = nth i (gaussian_window 11 1.5) 0.
Proof.
  apply (@gaussian_window_normalised 11 1.5); [lia|lra].
Defined.

(** X20: the kernel the constructor stores is a float32 tensor on the CPU
    of shape [1, 1, ws, ws]; its entry at row [a], column [b] is
    [g[a] * g[b]] for the normalised window [g], so the kernel is symmetric
    and its entries sum to 1. *)
Theorem init_kernel (ws : nat) (sg : R) :
  (1 <= ws)%nat -> sg <> 0 ->
  exists self,
    init ws sg = Ok self
    /\ (window_size self, sigma self, channel self) = (ws, sg, 1%nat)
    /\ shape (payload (window self)) = [1%nat; 1%nat; ws; ws]
    /\ (dtype_of (window self), device_of (window self)) = (Float32, CPU)
    /\ Rsum (data (payload (window self))) = 1
    /\ forall a b, (a < ws)%nat -> (b < ws)%nat ->
         nth (a * ws + b) (data (payload (window self))) 0
         = nth a (gaussian_window ws sg) 0 * nth b (gaussian_window ws sg) 0
         /\ nth (a * ws + b) (data (payload (window self))) 0
            = nth (b * ws + a) (data (payload (window self))) 0.
Proof.
  intros Hws Hsg. eexists. split; [apply init_run|].
  cbn [window_size sigma channel window payload shape data dtype_of device_of].
  do 3 (split; [reflexivity|]).
  set (g := gaussian_window ws sg).
  assert (Hentry : forall a b, (a < ws)%nat -> (b < ws)%nat ->
            nth (a * ws + b)
              (tabulate (numel [ws; ws])
                 (fun i => nth (i / ws) g 0 * nth (i mod ws) g 0)) 0
            = nth a g 0 * nth b g 0).
  { intros a b Ha Hb.
    rewrite nth_tabulate by (cbn [numel fold_right]; nia).
    rewrite Nat.div_add_l, (Nat.div_small b), Nat.add_0_r by lia.
    rewrite Nat.add_comm, Nat.Div0.mod_add, (Nat.mod_small b) by lia.
    reflexivity. }
  split.
  - change (numel [ws; ws]) with (ws * (ws * 1))%nat. rewrite Nat.mul_1_r.
    rewrite (Rsum_tabulate_grid (fun a b => nth a g 0 * nth b g 0)).
    assert (Hg : map (fun b => nth b g 0) (seq 0 ws) = g).
    { rewrite <- (gaussian_window_length ws sg). apply (tabulate_nth g 0). }
    rewrite (map_ext _ (fun a => nth a g 0 * 1)).
    + rewrite (map_ext _ (fun a => 1 * nth a g 0)) by (intros; ring).
      rewrite Rsum_map_scale, Hg. unfold g.
      rewrite gaussian_window_sum by exact Hws. ring.
    + intros a. rewrite Rsum_map_scale, Hg. unfold g.
      now rewrite gaussian_window_sum by exact Hws.
  - intros a b Ha Hb. rewrite !Hentry by assumption. split; [reflexivity|ring].
Qed.

Lemma init_kernel_witness :
  exists self,
    init 11 1.5 = Ok self
    /\ (window_size self, sigma self, channel self) = (11%nat, 1.5, 1%nat)
    /\ shape (payload (window self)) = [1; 1; 11; 11]%nat
    /\ (dtype_of (window self), device_of (window self)) = (Float32, CPU)
    /\ Rsum (data (payload (window self))) = 1
    /\ forall a b, (a < 11)%nat -> (b < 11)%nat ->
         nth (a * 11 + b) (data (payload (window self))) 0
         = nth a (gaussian_window 11 1.5) 0 * nth b (gaussian_window 11 1.5) 0
         /\ nth (a * 11 + b) (data (payload (window self))) 0
            = nth (b * 11 + a) (data (payload (window self))) 0.
Proof.
  apply (@init_kernel 11 1.5); [lia|lra].
Defined.

(** X21: on two non-empty single-channel batches of one shape, precision
    and device, [forward] returns a scalar score in [[0, 1]] and
    [ssim_loss] returns one minus that score, so the loss lies in [[0, 1]]
    too. *)
Theorem ssim_score_and_loss_ranges ws sg N H W d1 d2 dt dv self :
  init ws sg = Ok self ->
  (1 <= ws)%nat -> sg <> 0 ->
  (1 <= N)%nat -> (1 <= H)%nat -> (1 <= W)%nat ->
  let img1 := Place (mk [N; 1%nat; H; W] d1) dt dv in
  let img2 := Place (mk [N; 1%nat; H; W] d2) dt dv in
  exists v,
    snd (forward self img1 img2) = Ok (Place (mk [] [v]) dt dv)
    /\ snd (ssim_loss self img1 img2) = Ok (Place (mk [] [1 - v]) dt dv)
    /\ 0 <= v <= 1
    /\ 0 <= 1 - v <= 1.
Proof.
  intros Hinit Hws Hsg HN HH HW img1 img2.
  pose proof (@forward_run ws sg N H W d1 d2 dt dv self Hinit Hws HH HW) as Hrun.
  cbv zeta in Hrun. fold img1 img2 in Hrun.
  unfold mean in Hrun. cbn [payload data dtype_of device_of] in Hrun.
  eexists. split; [exact Hrun|]. split.
  - unfold ssim_loss. destruct (forward self img1 img2) as [self' r] eqn:E.
    cbn [snd] in Hrun |- *. rewrite Hrun. reflexivity.
  - set (osh := [N; 1%nat; (H + 2 * (ws / 2) - ws + 1)%nat;
                 (W + 2 * (ws / 2) - ws + 1)%nat]).
    match goal with
    | |- 0 <= Rsum ?l / _ <= 1 /\ _ =>
        assert (Hm : 0 <= Rsum l / INR (length l) <= 1)
    end.
    { apply unit_mean.
      - intros E. apply (f_equal (@length R)) in E.
        rewrite tabulate_length in E. unfold osh in E. simpl in E. nia.
      - unfold tabulate. apply Forall_map. apply Forall_forall. intros k _.
        apply ProcessExtra.clamp_bounds. lra. }
    lra.
Qed.

Lemma ssim_score_and_loss_ranges_witness :
  let img1 := Place (mk [1; 1; 2; 2]%nat [0; 1/4; 1/2; 1]) Float32 CPU in
  let img2 := Place (mk [1; 1; 2; 2]%nat [1; 1/2; 1/4; 0]) Float32 CPU in
  exists self,
    init 11 1.5 = Ok self
    /\ exists v,
         snd (forward self img1 img2) = Ok (Place (mk [] [v]) Float32 CPU)
         /\ snd (ssim_loss self img1 img2) = Ok (Place (mk [] [1 - v]) Float32 CPU)
         /\ 0 <= v <= 1
         /\ 0 <= 1 - v <= 1.
Proof.
  intros img1 img2. eexists. split; [apply init_run|].
  apply (@ssim_score_and_loss_ranges 11 1.5 1 2 2
           [0; 1/4; 1/2; 1] [1; 1/2; 1/4; 0] Float32 CPU).
  - apply init_run.
  - lia.
  - lra.
  - lia.
  - lia.
  - lia.
Defined.

(** X22: the score is symmetric: on two single-channel batches of one
    shape, precision and device, [forward] returns the same score, and
    leaves the object in the same state, whichever image comes first. *)
Theorem ssim_symmetric ws sg N H W d1 d2 dt dv self :
  init ws sg = Ok self ->
  (1 <= ws)%nat -> (1 <= H)%nat -> (1 <= W)%nat ->
  let img1 := Place (mk [N; 1%nat; H; W] d1) dt dv in
  let img2 := Place (mk [N; 1%nat; H; W] d2) dt dv in
  forward self img1 img2 = forward self img2 img1.
Proof.
  intros Hinit Hws HH HW img1 img2.
  pose proof (@forward_run ws sg N H W d1 d2 dt dv self Hinit Hws HH HW) as H12.
  pose proof (@forward_run ws sg N H W d2 d1 dt dv self Hinit Hws HH HW) as H21.
  cbv zeta in H12, H21. fold img1 img2 in H12, H21.
  rewrite (surjective_pairing (forward self img1 img2)).
  rewrite (surjective_pairing (forward self img2 img1)).
  rewrite H12, H21. f_equal. do 4 f_equal.
  apply tabulate_ext. intros k Hk.
  assert (Hp : tabulate (numel [N; 1%nat; H; W]) (fun i => nth i d2 0 * nth i d1 0)
               = tabulate (numel [N; 1%nat; H; W]) (fun i => nth i d1 0 * nth i d2 0))
    by (apply tabulate_ext; intros; ring).
  rewrite Hp. f_equal. f_equal; ring.
Qed.

Lemma ssim_symmetric_witness :
  let img1 := Place (mk [1; 1; 2; 2]%nat [0; 1/4; 1/2; 1]) Float32 CPU in
  let img2 := Place (mk [1; 1; 2; 2]%nat [1; 1/2; 1/4; 0]) Float32 CPU in
  exists self,
    init 11 1.5 = Ok self
    /\ forward self img1 img2 = forward self img2 img1.
Proof.
  intros img1 img2. eexists. split; [apply init_run|].
  apply (@ssim_symmetric 11 1.5 1 2 2
           [0; 1/4; 1/2; 1] [1; 1/2; 1/4; 0] Float32 CPU).
  - apply init_run.
  - lia.
  - lia.
  - lia.
Defined.

(** X23: the loss of a non-empty single-channel batch against itself is
    the scalar 0. *)
Theorem ssim_loss_of_image_with_itself ws sg N H W d dt dv self :
  init ws sg = Ok self ->
  (1 <= ws)%nat -> sg <> 0 ->
  (1 <= N)%nat -> (1 <= H)%nat -> (1 <= W)%nat ->
  let img := Place (mk [N; 1%nat; H; W] d) dt dv in
  snd (ssim_loss self img img) = Ok (Place (mk [] [0]) dt dv).
Proof.
  intros Hinit Hws Hsg HN HH HW img.
  pose proof (@forward_run ws sg N H W d d dt dv self Hinit Hws HH HW) as Hrun.
  cbv zeta in Hrun. fold img in Hrun.
  unfold ssim_loss. destruct (forward self img img) as [self' r] eqn:E.
  cbn [snd] in Hrun |- *. rewrite Hrun. cbn [rbind].
  unfold mean, pmap, tmap. cbn [payload data shape dtype_of device_of map].
  do 3 f_equal.
  set (osh := [N; 1%nat; (H + 2 * (ws / 2) - ws + 1)%nat;
               (W + 2 * (ws / 2) - ws + 1)%nat]).
  assert (Hpos : (0 < numel osh)%nat) by (unfold osh; simpl; nia).
  rewrite init_run in Hinit. injection Hinit as <-.
  cbn [window payload data].
  rewrite (@tabulate_ext R (numel osh) _ (fun _ => 1)).
  - rewrite tabulate_repeat, Rsum_repeat, repeat_length.
    assert (0 < INR (numel osh)) by (apply lt_0_INR; exact Hpos).
    f_equal. field. lra.
  - intros k Hk.
    assert (Hn : (nth 0 (unravel osh k) 0 < N)%nat).
    { unfold osh. cbn [unravel nth]. apply Nat.Div0.div_lt_upper_bound.
      unfold osh in Hk. cbn [numel fold_right] in *. lia. }
    pose proof (@local_variance_nonneg N H W d ws sg (ws / 2)
                  (nth 0 (unravel osh k) 0%nat)
                  (nth 2 (unravel osh k) 0%nat) (nth 3 (unravel osh k) 0%nat)
                  Hws Hn) as Hvar.
    cbv zeta in Hvar.
    now apply ssim_ratio_self.
Qed.

Lemma ssim_loss_of_image_with_itself_witness :
  let img := Place (mk [1; 1; 2; 2]%nat [0; 1/4; 1/2; 1]) Float16 (CUDA 0) in
  exists self,
    init 11 1.5 = Ok self
    /\ snd (ssim_loss self img img) = Ok (Place (mk [] [0]) Float16 (CUDA 0)).
Proof.
  intros img. eexists. split; [apply init_run|].
  apply (@ssim_loss_of_image_with_itself 11 1.5 1 2 2
           [0; 1/4; 1/2; 1] Float16 (CUDA 0)).
  - apply init_run.
  - lia.
  - lra.
  - lia.
  - lia.
  - lia.
Defined.



(** X25: the object is built for one channel: on a four-dimensional
    first image with any other number of channels, [forward] raises the
    shape error of the first convolution. *)
Theorem forward_rejects_other_channel_counts ws sg img1 img2 N C H W self :
  init ws sg = Ok self ->
  shape (payload img1) = [N; C; H; W] ->
  C <> 1%nat ->
  snd (forward self img1 img2) = Raise RuntimeError_shape.
Proof.
  intros Hinit Hsh HC.
  rewrite init_run in Hinit. injection Hinit as <-.
  unfold forward.
  cbn [snd window window_size channel dtype_of device_of payload data].
  unfold to_device, to_dtype. cbn [payload dtype_of device_of].
  unfold conv2d at 1. cbn [dtype_of device_of payload].
  rewrite dtype_eqb_refl, device_eqb_refl. cbn [andb negb].
  rewrite Hsh. unfold conv2d_nchw. rewrite Hsh. cbn [shape].
  assert (E : (1 * 1 =? C)%nat = false) by (apply Nat.eqb_neq; lia).
  rewrite E. reflexivity.
Qed.

Lemma forward_rejects_other_channel_counts_witness :
  let img := Place (mk [1; 3; 1; 1]%nat [0; 1/4; 1/2]) Float32 CPU in
  exists self,
    init 11 1.5 = Ok self
    /\ snd (forward self img img) = Raise RuntimeError_shape.
Proof.
  intros img. eexists. split; [apply init_run|].
  apply (@forward_rejects_other_channel_counts 11 1.5 img img 1 3 1 1).
  - apply init_run.
  - reflexivity.
  - lia.
Defined.

End SSIMExtra.
